(** * DemoLockV1: challenge-response lock firmware (main/main.c)

    A shallow embedding of the two HTTP handlers of the ESP32-S3 lock
    firmware, [get_challenge_handler] and [post_response_handler], together
    with the globals they touch, and the properties of the challenge-response
    protocol and of the lock/LED state machine that follow from the code. *)

From Stdlib Require Import ZArith List Bool Lia.
From Stdlib Require Import Strings.Byte Strings.String.
Import ListNotations.

Local Open Scope Z_scope.

(* ===================================================================== *)
(** ** Machine integers *)

Module Int.

Definition modulus : Z := 2 ^ 32.

(** Conversion to [unsigned] / [uint32_t] / [size_t] (32 bits on the
    ESP32-S3). *)
Definition to_unsigned (z : Z) : Z := z mod modulus.

(** Conversion to [int]: two's complement wrap-around. *)
Definition to_int (z : Z) : Z :=
  let u := z mod modulus in
  if u <? 2 ^ 31 then u else u - modulus.

End Int.

(* ===================================================================== *)
(** ** C strings

    A [char] buffer is a list of bytes.  The string it holds is the run of
    bytes in front of its first NUL. *)

Module CStr.

Definition NUL : byte := x00.

Definition is_nul (b : byte) : bool := Byte.eqb b NUL.

Definition uchar (b : byte) : Z := Z.of_N (Byte.to_N b).

(** The string held by a buffer: what [%s] and [strlen] see. *)
Fixpoint cstr (buf : list byte) : list byte :=
  match buf with
  | [] => []
  | b :: rest => if is_nul b then [] else b :: cstr rest
  end.

(** [strcmp(a, b)]: walks both buffers until they differ or both hold
    NUL; the result is the difference of the two bytes (as
    [unsigned char]) where the walk stops.  The end of a list reads as
    NUL. *)
Fixpoint strcmp (a b : list byte) : Z :=
  match a, b with
  | [], [] => 0
  | [], y :: _ => uchar NUL - uchar y
  | x :: _, [] => uchar x - uchar NUL
  | x :: a', y :: b' =>
      if Byte.eqb x y
      then (if is_nul x then 0 else strcmp a' b')
      else uchar x - uchar y
  end.

(** [snprintf(buf, size, fmt, ...)] where the format expands to [text]:
    at most [size - 1] bytes of the text are stored, then a NUL; the bytes
    of the buffer behind the NUL keep their old value. *)
Definition snprintf (buf : list byte) (size : nat) (text : list byte)
  : list byte :=
  let out := firstn (size - 1) text in
  out ++ [NUL] ++ skipn (S (List.length out)) buf.

(** ['0' + d] for a decimal digit [d]. *)
Definition digit (d : Z) : byte :=
  match Byte.of_N (Z.to_N (48 + d)) with
  | Some b => b
  | None => NUL
  end.

(** The digits of [v], least significant first, as [%u] produces them:
    [do { *--p = '0' + v % 10; v /= 10; } while (v);].  A 32-bit value has
    at most ten digits, which bounds the loop. *)
Fixpoint utoa_rev (fuel : nat) (v : Z) : list byte :=
  match fuel with
  | O => []
  | S fuel' =>
      digit (v mod 10) ::
      (if v / 10 =? 0 then [] else utoa_rev fuel' (v / 10))
  end.

(** The expansion of ["%u"] for an [unsigned] argument. *)
Definition fmt_u (v : Z) : list byte := rev (utoa_rev 10 v).

(** The value a run of decimal digits denotes. *)
Definition digit_val (b : byte) : Z := uchar b - 48.

Fixpoint atou_rev (ds : list byte) : Z :=
  match ds with
  | [] => 0
  | d :: ds' => digit_val d + 10 * atou_rev ds'
  end.

Definition no_nul (s : list byte) : Prop := ~ In NUL s.

End CStr.

(* ===================================================================== *)
(** ** Globals, effects and the handler monad *)

Module Lock.

Import CStr.

(** An RGB triple as passed to [set_led_color]. *)
Definition rgb : Type := (Z * Z * Z)%type.

Definition red : rgb := (255, 0, 0).
Definition green : rgb := (0, 255, 0).
Definition blue : rgb := (0, 0, 255).
Definition off : rgb := (0, 0, 0).

(** The file-scope variables of main.c, and the pixel the LED shows. *)
Record state : Type := mkState {
  led_strip : bool;                  (* handle is non-NULL *)
  pixel : rgb;                       (* colour on the LED *)
  pre_shared_key : list byte;        (* char [32] *)
  current_challenge : list byte;     (* char [64] *)
  lock_is_open : bool
}.

Definition sizeof_pre_shared_key : nat := 32.
Definition sizeof_current_challenge : nat := 64.
Definition sizeof_resp_buf : Z := 64.
Definition sizeof_expected : nat := 128.

Inductive esp_err_t : Type := ESP_OK | ESP_FAIL.

Inductive httpd_err_code_t : Type :=
| HTTPD_400_BAD_REQUEST
| HTTPD_401_UNAUTHORIZED.

(** What a handler does to the outside world. *)
Inductive event : Type :=
| LedRefresh (c : rgb)                        (* set_pixel + refresh *)
| RespSetType (mime : string)                 (* httpd_resp_set_type *)
| RespSendStr (body : list byte)              (* httpd_resp_sendstr *)
| RespSendErr (code : httpd_err_code_t) (msg : string)
| TaskDelay (ms : Z).                         (* vTaskDelay(pdMS_TO_TICKS(ms)) *)

(** Each event is logged with the globals as they are when it happens. *)
Definition trace : Type := list (event * state).

(** Handlers run in a state monad that also writes the log. *)
Definition M (A : Type) : Type := state -> A * state * trace.

Definition ret {A} (a : A) : M A := fun s => (a, s, []).

Definition bind {A B} (m : M A) (k : A -> M B) : M B :=
  fun s =>
    let '(a, s1, t1) := m s in
    let '(b, s2, t2) := k a s1 in
    (b, s2, t1 ++ t2).

Definition get : M state := fun s => (s, s, []).
Definition modify (f : state -> state) : M unit := fun s => (tt, f s, []).
Definition emit (e : event) : M unit := fun s => (tt, s, [(e, s)]).

Declare Scope lock_scope.
Delimit Scope lock_scope with lock.
Notation "x <- c ;; k" := (bind c (fun x => k))
  (at level 61, c at next level, right associativity) : lock_scope.
Notation "c ;; k" := (bind c (fun _ => k))
  (at level 61, right associativity) : lock_scope.
Local Open Scope lock_scope.

Definition result_of {A} (r : A * state * trace) : A := fst (fst r).
Definition state_of {A} (r : A * state * trace) : state := snd (fst r).
Definition trace_of {A} (r : A * state * trace) : trace := snd r.

(** *** Writes to the globals *)

Definition set_led_strip (h : bool) (s : state) : state :=
  mkState h (pixel s) (pre_shared_key s) (current_challenge s)
          (lock_is_open s).

Definition set_pixel (c : rgb) (s : state) : state :=
  mkState (led_strip s) c (pre_shared_key s) (current_challenge s)
          (lock_is_open s).

Definition set_current_challenge (buf : list byte) (s : state) : state :=
  mkState (led_strip s) (pixel s) (pre_shared_key s) buf (lock_is_open s).

Definition set_lock_is_open (b : bool) (s : state) : state :=
  mkState (led_strip s) (pixel s) (pre_shared_key s) (current_challenge s) b.

(** *** The LED *)

(** [configure_led_strip], on the path where [led_strip_new_rmt_device]
    succeeds ([ESP_ERROR_CHECK] aborts the firmware otherwise): the handle
    is set and the strip is cleared. *)
Definition configure_led_strip : M unit :=
  modify (set_led_strip true) ;;
  s <- get ;;
  if led_strip s then modify (set_pixel off) else ret tt.

(** [set_led_color]: with a handle, the pixel is set and the strip
    refreshed (both under [ESP_ERROR_CHECK]); without one, nothing
    happens. *)
Definition set_led_color (r g b : Z) : M unit :=
  s <- get ;;
  if led_strip s
  then modify (set_pixel (r, g, b)) ;; emit (LedRefresh (r, g, b))
  else ret tt.

(** *** The HTTP server, as far as the two handlers use it *)

Inductive sock_err : Type :=
| HTTPD_SOCK_ERR_FAIL
| HTTPD_SOCK_ERR_INVALID
| HTTPD_SOCK_ERR_TIMEOUT.

Definition sock_err_code (e : sock_err) : Z :=
  match e with
  | HTTPD_SOCK_ERR_FAIL => -1
  | HTTPD_SOCK_ERR_INVALID => -2
  | HTTPD_SOCK_ERR_TIMEOUT => -3
  end.

(** What the socket holds for the handler's one read of the body. *)
Inductive sock_data : Type :=
| SockErr (e : sock_err)
| SockBytes (bs : list byte).

Record httpd_req_t : Type := mkReq {
  content_len : Z;        (* size_t *)
  sock : sock_data
}.

(** [httpd_req_recv(req, buf, buf_len)]: the return value and the bytes
    stored in [buf]; never more than [buf_len] bytes, a negative code on a
    socket error, 0 when nothing arrives. *)
Definition httpd_req_recv (req : httpd_req_t) (buf_len : Z)
  : Z * list byte :=
  match sock req with
  | SockErr e => (sock_err_code e, [])
  | SockBytes bs =>
      let got := firstn (Z.to_nat buf_len) bs in
      (Z.of_nat (List.length got), got)
  end.

Definition httpd_resp_set_type (mime : string) : M unit :=
  emit (RespSetType mime).
Definition httpd_resp_sendstr (body : list byte) : M unit :=
  emit (RespSendStr body).
Definition httpd_resp_send_err (code : httpd_err_code_t) (msg : string)
  : M unit :=
  emit (RespSendErr code msg).
Definition vTaskDelay_ms (ms : Z) : M unit := emit (TaskDelay ms).

(** *** The handlers *)

(** [get_challenge_handler]; [rand_val] is what [esp_random()] returns. *)
Definition get_challenge_handler (rand_val : Z) : M esp_err_t :=
  modify (fun s =>
    set_current_challenge
      (snprintf (current_challenge s) sizeof_current_challenge
                (fmt_u (Int.to_unsigned rand_val))) s) ;;
  httpd_resp_set_type "text/plain" ;;
  s <- get ;;
  httpd_resp_sendstr (cstr (current_challenge s)) ;;
  ret ESP_OK.

(** [post_response_handler].  [total_len] is the [int] made from the
    request's [content_len]; the first check compares it with
    [sizeof(resp_buf)] as unsigned numbers.  [resp_buf] is the bytes
    received with the NUL the handler stores behind them; [expected] is
    what [snprintf] leaves in a fresh 128-byte array. *)
Definition post_response_handler (req : httpd_req_t) : M esp_err_t :=
  let total_len := Int.to_int (content_len req) in
  if Int.to_unsigned total_len >=? sizeof_resp_buf then
    httpd_resp_send_err HTTPD_400_BAD_REQUEST "Response too long" ;;
    ret ESP_FAIL
  else
    let '(recv_len, got) := httpd_req_recv req total_len in
    if recv_len <=? 0 then
      httpd_resp_send_err HTTPD_400_BAD_REQUEST
                          "No response data received" ;;
      ret ESP_FAIL
    else
      let resp_buf := got ++ [NUL] in
      s <- get ;;
      let expected :=
        snprintf [] sizeof_expected
                 (cstr (current_challenge s) ++ cstr (pre_shared_key s)) in
      if strcmp resp_buf expected =? 0 then
        modify (set_lock_is_open true) ;;
        set_led_color 0 255 0 ;;
        httpd_resp_sendstr (list_byte_of_string "Unlocked") ;;
        ret ESP_OK
      else
        set_led_color 0 0 255 ;;
        httpd_resp_send_err HTTPD_401_UNAUTHORIZED "Invalid token" ;;
        vTaskDelay_ms 4000 ;;
        modify (set_lock_is_open false) ;;
        set_led_color 255 0 0 ;;
        ret ESP_OK.

(** *** Start-up *)

(** The globals as their initialisers leave them: the key array holds
    ["DEFAULT_KEY"] and is zero-filled behind it, the challenge array is
    all zero, the lock is closed. *)
Definition zeros (n : nat) : list byte := repeat NUL n.

Definition DEFAULT_KEY : list byte := list_byte_of_string "DEFAULT_KEY".

Definition static_init : state :=
  mkState false off
          (DEFAULT_KEY ++
           zeros (sizeof_pre_shared_key - List.length DEFAULT_KEY))
          (zeros sizeof_current_challenge)
          false.

(** [app_main], as far as it touches the globals: the LED is configured
    and set to red before the server starts. *)
Definition app_main : M unit :=
  configure_led_strip ;;
  set_led_color 255 0 0.

(** The globals when the server starts taking requests. *)
Definition init_state : state := state_of (app_main static_init).

(** *** The protocol seen from outside *)

Inductive outcome : Type := Accepted | Rejected | Malformed.

(** The outcome a client reads off a response: 200 with a body is
    Accepted, 401 is Rejected, 400 is Malformed. *)
Definition outcome_of_event (e : event) : option outcome :=
  match e with
  | RespSendStr _ => Some Accepted
  | RespSendErr HTTPD_401_UNAUTHORIZED _ => Some Rejected
  | RespSendErr HTTPD_400_BAD_REQUEST _ => Some Malformed
  | _ => None
  end.

Fixpoint outcome_of_trace (t : trace) : option outcome :=
  match t with
  | [] => None
  | (e, _) :: t' =>
      match outcome_of_event e with
      | Some o => Some o
      | None => outcome_of_trace t'
      end
  end.

Definition verify_outcome (req : httpd_req_t) (s : state) : option outcome :=
  outcome_of_trace (trace_of (post_response_handler req s)).

(** A request whose body is [payload], arriving whole. *)
Definition request_of (payload : list byte) : httpd_req_t :=
  mkReq (Z.of_nat (List.length payload)) (SockBytes payload).

(** The token a challenge request returns for [rand_val]. *)
Definition token (rand_val : Z) : list byte :=
  fmt_u (Int.to_unsigned rand_val).

(** The secret: the string held by the key array. *)
Definition secret (s : state) : list byte := cstr (pre_shared_key s).

(** The outstanding challenge: the string held by the challenge array. *)
Definition outstanding (s : state) : list byte :=
  cstr (current_challenge s).

(** Requests, one after the other. *)
Inductive op : Type :=
| Issue (rand_val : Z)
| Verify (req : httpd_req_t).

Definition step (s : state) (o : op) : state :=
  match o with
  | Issue rand_val => state_of (get_challenge_handler rand_val s)
  | Verify req => state_of (post_response_handler req s)
  end.

Definition run (ops : list op) (s : state) : state := fold_left step ops s.

(** The token of the last challenge request in [ops], if any. *)
Fixpoint last_token (ops : list op) (acc : list byte) : list byte :=
  match ops with
  | [] => acc
  | Issue rand_val :: ops' => last_token ops' (token rand_val)
  | Verify _ :: ops' => last_token ops' acc
  end.

Definition is_verify (o : op) : bool :=
  match o with Verify _ => true | Issue _ => false end.

(** *** What the handler reads from the request *)

(** The size the first check looks at. *)
Definition checked_len (req : httpd_req_t) : Z :=
  Int.to_unsigned (Int.to_int (content_len req)).

Definition recv_len (req : httpd_req_t) : Z :=
  fst (httpd_req_recv req (Int.to_int (content_len req))).

Definition received (req : httpd_req_t) : list byte :=
  snd (httpd_req_recv req (Int.to_int (content_len req))).

(** The text [snprintf] puts in [expected]. *)
Definition expected_text (s : state) : list byte :=
  firstn (sizeof_expected - 1) (outstanding s ++ secret s).

(** The effect of [set_led_color] on the globals and on the log. *)

Definition led_write (c : rgb) (s : state) : state :=
  if led_strip s then set_pixel c s else s.

Definition led_log (c : rgb) (s : state) : trace :=
  if led_strip s then [(LedRefresh c, set_pixel c s)] else [].

(** The globals at the end of each way through
    [post_response_handler] that writes them. *)
Definition accepted_state (s : state) : state :=
  led_write green (set_lock_is_open true s).

Definition hold_state (s : state) : state := led_write blue s.

Definition relocked_state (s : state) : state :=
  led_write red (set_lock_is_open false (hold_state s)).

(** The globals at the end of [get_challenge_handler]. *)
Definition issued_state (rand_val : Z) (s : state) : state :=
  set_current_challenge
    (snprintf (current_challenge s) sizeof_current_challenge
              (token rand_val)) s.

(** The key array holds its terminator: the secret is shorter than the
    array. *)
Definition key_ok (s : state) : Prop :=
  (List.length (secret s) < sizeof_pre_shared_key)%nat.

(** The response a client computes for the challenge it got for
    [rand_val]: the token followed by the secret. *)
Definition response_for (rand_val : Z) (s : state) : list byte :=
  token rand_val ++ secret s.

(** The arrays have their declared sizes and hold a terminator. *)
Definition arrays_ok (s : state) : Prop :=
  List.length (pre_shared_key s) = sizeof_pre_shared_key /\
  In NUL (pre_shared_key s) /\
  List.length (current_challenge s) = sizeof_current_challenge /\
  In NUL (current_challenge s).

(** The log without the snapshots. *)
Definition events (t : trace) : list event := map fst t.

End Lock.

(* ===================================================================== *)
(** ** Runs with their logs, and what a log adds up to *)

Module Log.

Import CStr Lock.

(** A decimal digit character. *)
Definition is_digit (b : byte) : bool :=
  (48 <=? uchar b) && (uchar b <=? 57).

(** The number a digit string denotes, most significant digit first. *)
Definition atou (s : list byte) : Z := atou_rev (rev s).

(** The handler the server runs for a request. *)
Definition handle (o : op) : M esp_err_t :=
  match o with
  | Issue rand_val => get_challenge_handler rand_val
  | Verify req => post_response_handler req
  end.

(** The log of a run of requests. *)
Fixpoint run_trace (ops : list op) (s : state) : trace :=
  match ops with
  | [] => []
  | o :: ops' =>
      trace_of (handle o s) ++ run_trace ops' (state_of (handle o s))
  end.

(** The verifications of a run that were Rejected. *)
Fixpoint rejections (ops : list op) (s : state) : Z :=
  match ops with
  | [] => 0
  | o :: ops' =>
      (match o with
       | Verify req =>
           match verify_outcome req s with
           | Some Rejected => 1
           | _ => 0
           end
       | Issue _ => 0
       end) + rejections ops' (step s o)
  end.

Definition is_response (e : event) : bool :=
  match e with
  | RespSendStr _ | RespSendErr _ _ => true
  | _ => false
  end.

(** The HTTP responses in a log. *)
Definition responses (t : trace) : list event :=
  filter is_response (events t).

Definition delay_of (e : event) : Z :=
  match e with
  | TaskDelay ms => ms
  | _ => 0
  end.

(** The time a log spends in [vTaskDelay], in milliseconds. *)
Definition total_delay (t : trace) : Z :=
  fold_right (fun e acc => delay_of e + acc) 0 (events t).

(** The colour that goes with a lock flag: green for open, red for
    closed. *)
Definition led_of_lock (open : bool) : rgb := if open then green else red.

End Log.

(* ===================================================================== *)
(** ** The page served to the phone (index.html)

    The script of the page, run against the handlers above.  Strings are
    taken as the bytes that go over the wire. *)

Module Page.

Import CStr Lock.

(** What [showStatus] is called with. *)
Inductive status_msg : Type :=
| KeySaved                        (* 'Key saved!' *)
| SetKeyFirst                     (* 'Please set a key first!', error *)
| ErrorText (text : list byte)    (* `Error: ${text}`, error *)
| UnlockSuccessful                (* 'Unlock successful!' *)
| UnlockFailed.                   (* 'Unlock failed!', error *)

Record page : Type := mkPage {
  psk : option (list byte);       (* localStorage item 'psk' *)
  keyField : list byte;           (* value of the input field *)
  status : option status_msg      (* text of the status div *)
}.

(** [localStorage.getItem('psk') || dflt]: a missing item and an empty
    string both give the default. *)
Definition getItem_or (item : option (list byte)) (dflt : list byte)
  : list byte :=
  match item with
  | Some (b :: v) => b :: v
  | _ => dflt
  end.

(** The script's top level: the field is filled from the stored key, or
    with 'DEFAULT_KEY'. *)
Definition load (stored : option (list byte)) : page :=
  mkPage stored (getItem_or stored (list_byte_of_string "DEFAULT_KEY")) None.

(** The user types into the field. *)
Definition type_key (v : list byte) (pg : page) : page :=
  mkPage (psk pg) v (status pg).

(** [saveKeyBtn.onclick]. *)
Definition saveKey (pg : page) : page :=
  mkPage (Some (keyField pg)) (keyField pg) (Some KeySaved).

(** What [fetch] resolves to: [ok] and the body text.  A 200 sent with
    [httpd_resp_sendstr] is ok; an error sent with [httpd_resp_send_err]
    is not, and carries the message as its body. *)
Fixpoint fetched (t : trace) : option (bool * list byte) :=
  match t with
  | [] => None
  | (RespSendStr body, _) :: _ => Some (true, body)
  | (RespSendErr _ msg, _) :: _ => Some (false, list_byte_of_string msg)
  | _ :: t' => fetched t'
  end.

(** [openLockBtn.onclick], against a server whose globals are [s] and whose
    random source gives [rand_val] for the challenge: the page after the
    click, and the server's globals. *)
Definition openLock (rand_val : Z) (pg : page) (s : state) : page * state :=
  let key := getItem_or (psk pg) [] in
  match key with
  | [] => (mkPage (psk pg) (keyField pg) (Some SetKeyFirst), s)
  | _ :: _ =>
      let r1 := get_challenge_handler rand_val s in
      match fetched (trace_of r1) with
      | None => (mkPage (psk pg) (keyField pg) (Some UnlockFailed),
                 state_of r1)
      | Some (_, challenge) =>
          let response := challenge ++ key in
          let r2 := post_response_handler (request_of response)
                                          (state_of r1) in
          match fetched (trace_of r2) with
          | None => (mkPage (psk pg) (keyField pg) (Some UnlockFailed),
                     state_of r2)
          | Some (ok, text) =>
              (mkPage (psk pg) (keyField pg)
                      (Some (if ok then UnlockSuccessful
                             else ErrorText text)),
               state_of r2)
          end
      end
  end.

End Page.

(* ===================================================================== *)
(** ** The second listing of the firmware

    The repository holds a second copy of main.c whose comments and log
    lines are in Chinese.  Its [get_challenge_handler] is the one above,
    statement for statement; its [post_response_handler] sends other texts
    with the two 400 answers. *)

Module MainZh.

Import CStr Lock.
Local Open Scope lock_scope.

Definition post_response_handler (req : httpd_req_t) : M esp_err_t :=
  let total_len := Int.to_int (content_len req) in
  if Int.to_unsigned total_len >=? sizeof_resp_buf then
    httpd_resp_send_err HTTPD_400_BAD_REQUEST "响应太长" ;;
    ret ESP_FAIL
  else
    let '(recv_len, got) := httpd_req_recv req total_len in
    if recv_len <=? 0 then
      httpd_resp_send_err HTTPD_400_BAD_REQUEST "未收到响应数据" ;;
      ret ESP_FAIL
    else
      let resp_buf := got ++ [NUL] in
      s <- get ;;
      let expected :=
        snprintf [] sizeof_expected
                 (cstr (current_challenge s) ++ cstr (pre_shared_key s)) in
      if strcmp resp_buf expected =? 0 then
        modify (set_lock_is_open true) ;;
        set_led_color 0 255 0 ;;
        httpd_resp_sendstr (list_byte_of_string "Unlocked") ;;
        ret ESP_OK
      else
        set_led_color 0 0 255 ;;
        httpd_resp_send_err HTTPD_401_UNAUTHORIZED "Invalid token" ;;
        vTaskDelay_ms 4000 ;;
        modify (set_lock_is_open false) ;;
        set_led_color 255 0 0 ;;
        ret ESP_OK.

End MainZh.

(* ===================================================================== *)
(** ** Facts about C strings *)

Module CStrFacts.

Import CStr.

Lemma uchar_inj (x y : byte) : uchar x = uchar y -> x = y.
Proof.
  unfold uchar; intros H.
  apply N2Z.inj in H.
  assert (E : Byte.of_N (Byte.to_N x) = Byte.of_N (Byte.to_N y))
    by (now rewrite H).
  rewrite !Byte.of_to_N in E.
  now inversion E.
Qed.

Lemma eqb_iff (x y : byte) : Byte.eqb x y = true <-> x = y.
Proof.
  split; [apply Byte.byte_dec_bl | apply Byte.byte_dec_lb].
Qed.

Lemma eqb_neq (x y : byte) : Byte.eqb x y = false <-> x <> y.
Proof.
  split.
  - apply Byte.eqb_false.
  - intros N. destruct (Byte.eqb x y) eqn:E; [|reflexivity].
    apply eqb_iff in E. contradiction.
Qed.

Lemma is_nul_true (b : byte) : is_nul b = true <-> b = NUL.
Proof. apply eqb_iff. Qed.

Lemma is_nul_false (b : byte) : is_nul b = false <-> b <> NUL.
Proof. apply eqb_neq. Qed.

Lemma uchar_diff_zero (x y : byte) : uchar x - uchar y = 0 -> x = y.
Proof. intros H. apply uchar_inj. lia. Qed.

(** *** [cstr] *)

Lemma cstr_no_nul (s : list byte) : no_nul (cstr s).
Proof.
  unfold no_nul.
  induction s as [|b s IH]; simpl; [tauto|].
  destruct (is_nul b) eqn:E; simpl; [tauto|].
  apply is_nul_false in E.
  intros [H|H]; [congruence | tauto].
Qed.

Lemma cstr_id (s : list byte) : no_nul s -> cstr s = s.
Proof.
  unfold no_nul.
  induction s as [|b s IH]; simpl; intros H; [reflexivity|].
  destruct (is_nul b) eqn:E.
  - apply is_nul_true in E. subst b. tauto.
  - f_equal. apply IH. tauto.
Qed.

Lemma cstr_app_nul (s rest : list byte) :
  cstr (s ++ NUL :: rest) = cstr s.
Proof.
  induction s as [|b s IH]; simpl; [reflexivity|].
  destruct (is_nul b); [reflexivity | now rewrite IH].
Qed.

Lemma cstr_app (a rest : list byte) :
  no_nul a -> cstr (a ++ rest) = a ++ cstr rest.
Proof.
  unfold no_nul.
  induction a as [|b a IH]; simpl; intros H; [reflexivity|].
  destruct (is_nul b) eqn:E.
  - apply is_nul_true in E. subst b. tauto.
  - f_equal. apply IH. tauto.
Qed.

Lemma cstr_length (s : list byte) :
  (List.length (cstr s) <= List.length s)%nat.
Proof.
  induction s as [|b s IH]; simpl; [lia|].
  destruct (is_nul b); simpl; lia.
Qed.

Lemma no_nul_app (a b : list byte) :
  no_nul (a ++ b) <-> no_nul a /\ no_nul b.
Proof.
  unfold no_nul. rewrite in_app_iff. tauto.
Qed.

(** A buffer that holds a NUL holds a string shorter than itself. *)
Lemma cstr_length_lt (s : list byte) :
  In NUL s -> (List.length (cstr s) < List.length s)%nat.
Proof.
  induction s as [|b s IH]; simpl; [tauto|].
  intros H.
  destruct (is_nul b) eqn:E; simpl; [lia|].
  apply is_nul_false in E.
  destruct H as [H|H]; [congruence|].
  specialize (IH H). lia.
Qed.

(** *** [strcmp] decides equality of the strings held *)

Theorem strcmp_zero_iff (a b : list byte) :
  strcmp a b = 0 <-> cstr a = cstr b.
Proof.
  revert b.
  induction a as [|x a IH]; intros [|y b]; cbn [strcmp cstr].
  - tauto.
  - destruct (is_nul y) eqn:E.
    + apply is_nul_true in E. subst y. tauto.
    + split; [|discriminate].
      intros H. apply uchar_diff_zero in H.
      apply is_nul_false in E. congruence.
  - destruct (is_nul x) eqn:E.
    + apply is_nul_true in E. subst x. tauto.
    + split; [|discriminate].
      intros H. apply uchar_diff_zero in H.
      apply is_nul_false in E. congruence.
  - destruct (Byte.eqb x y) eqn:Exy.
    + apply eqb_iff in Exy. subst y.
      destruct (is_nul x); [tauto|].
      rewrite IH. split; [congruence|].
      intros H. now inversion H.
    + apply eqb_neq in Exy.
      split.
      * intros H. apply uchar_diff_zero in H. contradiction.
      * destruct (is_nul x) eqn:Ex, (is_nul y) eqn:Ey;
          try discriminate.
        -- apply is_nul_true in Ex, Ey. congruence.
        -- intros H. inversion H. contradiction.
Qed.

Lemma strcmp_eqb (a b : list byte) :
  (strcmp a b =? 0) = true <-> cstr a = cstr b.
Proof. rewrite Z.eqb_eq. apply strcmp_zero_iff. Qed.

(** *** [snprintf] *)

Lemma cstr_snprintf (buf : list byte) (size : nat) (text : list byte) :
  no_nul text ->
  cstr (snprintf buf size text) = firstn (size - 1) text.
Proof.
  intros H. unfold snprintf. simpl.
  rewrite cstr_app_nul. apply cstr_id.
  unfold no_nul in *. intros I. apply H.
  rewrite <- (firstn_skipn (size - 1) text).
  apply in_or_app. now left.
Qed.

Lemma snprintf_length (buf : list byte) (size : nat) (text : list byte) :
  (0 < size)%nat -> List.length buf = size ->
  List.length (snprintf buf size text) = size.
Proof.
  intros Hs Hb. unfold snprintf.
  rewrite !length_app, length_skipn. simpl.
  pose proof (firstn_le_length (size - 1) text). lia.
Qed.

End CStrFacts.

(* ===================================================================== *)
(** ** Facts about the ["%u"] conversion *)

Module FmtFacts.

Import CStr CStrFacts.

Lemma digit_cases (d : Z) :
  0 <= d <= 9 ->
  d = 0 \/ d = 1 \/ d = 2 \/ d = 3 \/ d = 4 \/
  d = 5 \/ d = 6 \/ d = 7 \/ d = 8 \/ d = 9.
Proof. lia. Qed.

Lemma digit_not_nul (d : Z) : 0 <= d <= 9 -> digit d <> NUL.
Proof.
  intros H.
  destruct (digit_cases d H) as [E|[E|[E|[E|[E|[E|[E|[E|[E|E]]]]]]]]];
    subst d; discriminate.
Qed.

Lemma digit_val_digit (d : Z) : 0 <= d <= 9 -> digit_val (digit d) = d.
Proof.
  intros H.
  destruct (digit_cases d H) as [E|[E|[E|[E|[E|[E|[E|[E|[E|E]]]]]]]]];
    subst d; reflexivity.
Qed.

Lemma utoa_rev_no_nul (fuel : nat) (v : Z) : no_nul (utoa_rev fuel v).
Proof.
  unfold no_nul. revert v.
  induction fuel as [|fuel IH]; intros v; simpl; [tauto|].
  intros [H|H].
  - revert H. apply digit_not_nul.
    pose proof (Z.mod_pos_bound v 10). lia.
  - destruct (v / 10 =? 0); [contradiction | exact (IH _ H)].
Qed.

Lemma utoa_rev_length (fuel : nat) (v : Z) :
  (List.length (utoa_rev fuel v) <= fuel)%nat.
Proof.
  revert v.
  induction fuel as [|fuel IH]; intros v; simpl; [lia|].
  destruct (v / 10 =? 0); simpl; [lia|].
  specialize (IH (v / 10)). lia.
Qed.

(** With enough fuel the digits denote the value: the loop ran to its
    end. *)
Lemma atou_utoa_rev (fuel : nat) (v : Z) :
  0 <= v < 10 ^ Z.of_nat fuel ->
  atou_rev (utoa_rev fuel v) = v.
Proof.
  revert v.
  induction fuel as [|fuel IH]; intros v Hv.
  - simpl in Hv. simpl. lia.
  - rewrite Nat2Z.inj_succ, Z.pow_succ_r in Hv by lia.
    cbn [utoa_rev].
    pose proof (Z.mod_pos_bound v 10) as Hm.
    pose proof (Z.div_mod v 10) as Hd.
    destruct (v / 10 =? 0) eqn:E.
    + apply Z.eqb_eq in E.
      cbn [atou_rev]. rewrite digit_val_digit by lia. lia.
    + cbn [atou_rev]. rewrite digit_val_digit by lia.
      rewrite IH; [lia|].
      split; [apply Z.div_pos; lia|].
      apply Z.div_lt_upper_bound; lia.
Qed.

Lemma fmt_u_no_nul (v : Z) : no_nul (fmt_u v).
Proof.
  unfold fmt_u, no_nul. rewrite <- in_rev. apply utoa_rev_no_nul.
Qed.

Lemma fmt_u_length (v : Z) : (1 <= List.length (fmt_u v) <= 10)%nat.
Proof.
  unfold fmt_u. rewrite length_rev.
  split; [|apply utoa_rev_length].
  simpl. lia.
Qed.

Lemma fmt_u_inj (v w : Z) :
  0 <= v < Int.modulus -> 0 <= w < Int.modulus ->
  fmt_u v = fmt_u w -> v = w.
Proof.
  unfold fmt_u, Int.modulus. intros Hv Hw E.
  assert (E' : utoa_rev 10 v = utoa_rev 10 w).
  { rewrite <- (rev_involutive (utoa_rev 10 v)), E.
    apply rev_involutive. }
  rewrite <- (atou_utoa_rev 10 v), <- (atou_utoa_rev 10 w), E';
    [reflexivity | |]; simpl Z.of_nat; lia.
Qed.

End FmtFacts.

(* ===================================================================== *)
(** ** The handlers, branch by branch *)

Module HandlerFacts.

Import CStr CStrFacts FmtFacts Lock.
Local Open Scope lock_scope.

(** *** Integer conversions in the length check *)

Lemma to_unsigned_to_int (z : Z) :
  Int.to_unsigned (Int.to_int z) = z mod Int.modulus.
Proof.
  unfold Int.to_unsigned, Int.to_int, Int.modulus.
  pose proof (Z.mod_pos_bound z (2 ^ 32)) as B.
  destruct (z mod 2 ^ 32 <? 2 ^ 31).
  - apply Z.mod_mod. lia.
  - rewrite <- (Z.mod_add _ 1) by lia.
    replace (z mod 2 ^ 32 - 2 ^ 32 + 1 * 2 ^ 32) with (z mod 2 ^ 32) by lia.
    apply Z.mod_mod. lia.
Qed.

Lemma to_int_small (z : Z) : 0 <= z < 2 ^ 31 -> Int.to_int z = z.
Proof.
  intros H. unfold Int.to_int, Int.modulus.
  rewrite Z.mod_small by lia.
  destruct (z <? 2 ^ 31) eqn:E; [reflexivity|].
  apply Z.ltb_ge in E. lia.
Qed.

Lemma set_led_color_eq (r g b : Z) (s : state) :
  set_led_color r g b s = (tt, led_write (r, g, b) s, led_log (r, g, b) s).
Proof.
  unfold set_led_color, led_write, led_log, bind, get, modify, emit, ret.
  destruct (led_strip s); reflexivity.
Qed.

Lemma outcome_led_log (c : rgb) (s : state) (t : trace) :
  outcome_of_trace (led_log c s ++ t) = outcome_of_trace t.
Proof. unfold led_log. destruct (led_strip s); reflexivity. Qed.

(** *** The four ways through [post_response_handler] *)

Lemma post_too_long (req : httpd_req_t) (s : state) :
  sizeof_resp_buf <= checked_len req ->
  post_response_handler req s =
  (ESP_FAIL, s,
   [(RespSendErr HTTPD_400_BAD_REQUEST "Response too long", s)]).
Proof.
  unfold checked_len, post_response_handler. intros H.
  rewrite Z.geb_leb.
  apply Z.leb_le in H. rewrite H. reflexivity.
Qed.

Lemma post_no_data (req : httpd_req_t) (s : state) :
  checked_len req < sizeof_resp_buf ->
  recv_len req <= 0 ->
  post_response_handler req s =
  (ESP_FAIL, s,
   [(RespSendErr HTTPD_400_BAD_REQUEST "No response data received", s)]).
Proof.
  unfold checked_len, recv_len, post_response_handler. intros H R.
  rewrite Z.geb_leb.
  apply Z.leb_gt in H. rewrite H.
  destruct (httpd_req_recv req (Int.to_int (content_len req)))
    as [n got].
  simpl in R. apply Z.leb_le in R. rewrite R. reflexivity.
Qed.

Lemma cstr_expected (s : state) :
  cstr (snprintf [] sizeof_expected (outstanding s ++ secret s)) =
  expected_text s.
Proof.
  apply cstr_snprintf, no_nul_app.
  split; apply cstr_no_nul.
Qed.

Lemma post_accept (req : httpd_req_t) (s : state) :
  checked_len req < sizeof_resp_buf ->
  0 < recv_len req ->
  cstr (received req) = expected_text s ->
  post_response_handler req s =
  (ESP_OK, accepted_state s,
   led_log green (set_lock_is_open true s) ++
   [(RespSendStr (list_byte_of_string "Unlocked"), accepted_state s)]).
Proof.
  unfold checked_len, recv_len, received, post_response_handler.
  intros H R E.
  rewrite Z.geb_leb.
  apply Z.leb_gt in H. rewrite H.
  destruct (httpd_req_recv req (Int.to_int (content_len req)))
    as [n got].
  simpl in R, E. apply Z.leb_gt in R. rewrite R.
  unfold bind at 1. unfold get at 1.
  fold (outstanding s) (secret s).
  assert (C : (strcmp (got ++ [NUL])
                 (snprintf [] sizeof_expected (outstanding s ++ secret s))
               =? 0) = true).
  { apply strcmp_eqb. rewrite cstr_app_nul, cstr_expected. exact E. }
  rewrite C.
  unfold bind, modify, httpd_resp_sendstr, emit, ret.
  rewrite set_led_color_eq.
  unfold accepted_state, green. rewrite app_nil_r. reflexivity.
Qed.

Lemma post_reject (req : httpd_req_t) (s : state) :
  checked_len req < sizeof_resp_buf ->
  0 < recv_len req ->
  cstr (received req) <> expected_text s ->
  post_response_handler req s =
  (ESP_OK, relocked_state s,
   led_log blue s ++
   [(RespSendErr HTTPD_401_UNAUTHORIZED "Invalid token", hold_state s);
    (TaskDelay 4000, hold_state s)] ++
   led_log red (set_lock_is_open false (hold_state s))).
Proof.
  unfold checked_len, recv_len, received, post_response_handler.
  intros H R E.
  rewrite Z.geb_leb.
  apply Z.leb_gt in H. rewrite H.
  destruct (httpd_req_recv req (Int.to_int (content_len req)))
    as [n got].
  simpl in R, E. apply Z.leb_gt in R. rewrite R.
  unfold bind at 1. unfold get at 1.
  fold (outstanding s) (secret s).
  assert (C : (strcmp (got ++ [NUL])
                 (snprintf [] sizeof_expected (outstanding s ++ secret s))
               =? 0) = false).
  { destruct (strcmp _ _ =? 0) eqn:C; [|reflexivity].
    apply strcmp_eqb in C.
    rewrite cstr_app_nul, cstr_expected in C. contradiction. }
  rewrite C.
  unfold bind, modify, httpd_resp_send_err, vTaskDelay_ms, emit, ret.
  rewrite set_led_color_eq. fold blue. fold (hold_state s).
  rewrite set_led_color_eq. fold red.
  unfold relocked_state. rewrite app_nil_r. reflexivity.
Qed.

End HandlerFacts.

(* ===================================================================== *)
(** ** Requests that carry a whole payload, and challenge requests *)

Module ProtocolFacts.

Import CStr CStrFacts FmtFacts Lock HandlerFacts.
Local Open Scope lock_scope.

(** *** [request_of] *)

Lemma request_of_checked_len (P : list byte) :
  Z.of_nat (List.length P) < Int.modulus ->
  checked_len (request_of P) = Z.of_nat (List.length P).
Proof.
  intros H. unfold checked_len, request_of. cbn [content_len].
  rewrite to_unsigned_to_int. apply Z.mod_small. lia.
Qed.

Lemma request_of_received (P : list byte) :
  Z.of_nat (List.length P) < sizeof_resp_buf ->
  recv_len (request_of P) = Z.of_nat (List.length P) /\
  received (request_of P) = P.
Proof.
  unfold sizeof_resp_buf. intros H.
  unfold recv_len, received, request_of, httpd_req_recv.
  cbn [content_len sock fst snd].
  rewrite to_int_small by lia.
  rewrite Nat2Z.id, firstn_all. tauto.
Qed.

Lemma request_of_in_bounds (P : list byte) :
  0 < Z.of_nat (List.length P) < sizeof_resp_buf ->
  checked_len (request_of P) < sizeof_resp_buf /\
  0 < recv_len (request_of P) /\
  received (request_of P) = P.
Proof.
  intros H.
  destruct (request_of_received P) as [R G]; [lia|].
  rewrite request_of_checked_len, R, G.
  - repeat split; lia.
  - unfold sizeof_resp_buf, Int.modulus in *. lia.
Qed.

(** *** Truncation in [expected] never matters for a received body *)

Lemma firstn_eq_short {A} (n : nat) (a t : list A) :
  (List.length a < n)%nat -> (a = firstn n t <-> a = t).
Proof.
  intros H. split; intros E.
  - assert (L : (List.length t <= n)%nat).
    { destruct (Nat.le_gt_cases (List.length t) n) as [L|L]; [exact L|].
      rewrite E, length_firstn in H. lia. }
    rewrite E. apply firstn_all2. exact L.
  - subst a. symmetry. apply firstn_all2. lia.
Qed.

Lemma received_length (req : httpd_req_t) :
  checked_len req < sizeof_resp_buf ->
  Z.of_nat (List.length (received req)) < sizeof_resp_buf.
Proof.
  unfold checked_len, received, httpd_req_recv, sizeof_resp_buf.
  intros H.
  destruct (sock req) as [e|bs]; cbn [snd]; [simpl; lia|].
  rewrite length_firstn.
  assert (B : Int.to_int (content_len req) < 64).
  { revert H. unfold Int.to_unsigned, Int.to_int, Int.modulus.
    pose proof (Z.mod_pos_bound (content_len req) (2 ^ 32)) as B.
    destruct (content_len req mod 2 ^ 32 <? 2 ^ 31) eqn:E.
    - rewrite Z.mod_mod by lia. lia.
    - lia. }
  lia.
Qed.

Lemma matches_expected (req : httpd_req_t) (s : state) :
  checked_len req < sizeof_resp_buf ->
  (cstr (received req) = expected_text s <->
   cstr (received req) = outstanding s ++ secret s).
Proof.
  intros H. unfold expected_text.
  apply firstn_eq_short.
  pose proof (received_length req H) as L.
  pose proof (cstr_length (received req)).
  unfold sizeof_resp_buf, sizeof_expected in *. lia.
Qed.

(** *** The outcome of a verification *)

Lemma outcome_too_long (req : httpd_req_t) (s : state) :
  sizeof_resp_buf <= checked_len req ->
  verify_outcome req s = Some Malformed.
Proof.
  intros H. unfold verify_outcome.
  now rewrite post_too_long.
Qed.

Lemma outcome_no_data (req : httpd_req_t) (s : state) :
  checked_len req < sizeof_resp_buf ->
  recv_len req <= 0 ->
  verify_outcome req s = Some Malformed.
Proof.
  intros H R. unfold verify_outcome.
  now rewrite post_no_data.
Qed.

Lemma outcome_accept (req : httpd_req_t) (s : state) :
  checked_len req < sizeof_resp_buf ->
  0 < recv_len req ->
  cstr (received req) = outstanding s ++ secret s ->
  verify_outcome req s = Some Accepted.
Proof.
  intros H R E. unfold verify_outcome.
  rewrite post_accept by (try apply matches_expected; assumption).
  unfold trace_of. cbn [snd].
  now rewrite outcome_led_log.
Qed.

Lemma outcome_reject (req : httpd_req_t) (s : state) :
  checked_len req < sizeof_resp_buf ->
  0 < recv_len req ->
  cstr (received req) <> outstanding s ++ secret s ->
  verify_outcome req s = Some Rejected.
Proof.
  intros H R E. unfold verify_outcome.
  rewrite post_reject; try assumption.
  - unfold trace_of. cbn [snd].
    now rewrite outcome_led_log.
  - intros C. apply E. now apply matches_expected.
Qed.

(** Which way a request goes, from what it carries and the globals. *)
Lemma outcome_cases (req : httpd_req_t) (s : state) :
  (verify_outcome req s = Some Malformed /\
   (sizeof_resp_buf <= checked_len req \/ recv_len req <= 0)) \/
  (verify_outcome req s = Some Accepted /\
   checked_len req < sizeof_resp_buf /\ 0 < recv_len req /\
   cstr (received req) = outstanding s ++ secret s) \/
  (verify_outcome req s = Some Rejected /\
   checked_len req < sizeof_resp_buf /\ 0 < recv_len req /\
   cstr (received req) <> outstanding s ++ secret s).
Proof.
  destruct (Z_lt_le_dec (checked_len req) sizeof_resp_buf) as [H|H].
  - destruct (Z_lt_le_dec 0 (recv_len req)) as [R|R].
    + destruct (list_eq_dec Byte.byte_eq_dec (cstr (received req))
                            (outstanding s ++ secret s)) as [E|E].
      * right; left. auto using outcome_accept.
      * right; right. auto using outcome_reject.
    + left. auto using outcome_no_data.
  - left. auto using outcome_too_long.
Qed.

(** *** [get_challenge_handler] *)

Lemma outstanding_issued (rand_val : Z) (s : state) :
  outstanding (issued_state rand_val s) = token rand_val.
Proof.
  unfold outstanding, issued_state, set_current_challenge, token.
  cbn [current_challenge].
  rewrite cstr_snprintf by apply fmt_u_no_nul.
  apply firstn_all2.
  pose proof (fmt_u_length (Int.to_unsigned rand_val)).
  unfold sizeof_current_challenge. lia.
Qed.

Lemma get_challenge_eq (rand_val : Z) (s : state) :
  get_challenge_handler rand_val s =
  (ESP_OK, issued_state rand_val s,
   [(RespSetType "text/plain", issued_state rand_val s);
    (RespSendStr (token rand_val), issued_state rand_val s)]).
Proof.
  unfold get_challenge_handler, bind, modify, get, httpd_resp_set_type,
    httpd_resp_sendstr, emit, ret.
  fold (token rand_val). fold (issued_state rand_val s).
  fold (outstanding (issued_state rand_val s)).
  rewrite outstanding_issued. reflexivity.
Qed.

Lemma token_no_nul (rand_val : Z) : no_nul (token rand_val).
Proof. apply fmt_u_no_nul. Qed.

Lemma token_length (rand_val : Z) :
  (1 <= List.length (token rand_val) <= 10)%nat.
Proof. apply fmt_u_length. Qed.

Lemma token_inj (r1 r2 : Z) :
  token r1 = token r2 -> Int.to_unsigned r1 = Int.to_unsigned r2.
Proof.
  unfold token. intros E.
  apply fmt_u_inj in E; [exact E | |];
    unfold Int.to_unsigned, Int.modulus; apply Z.mod_pos_bound; lia.
Qed.

End ProtocolFacts.

(* ===================================================================== *)
(** ** What each request leaves alone, and runs of requests *)

Module RunFacts.

Import CStr CStrFacts FmtFacts Lock HandlerFacts ProtocolFacts.
Local Open Scope lock_scope.

(** The handler goes one of three ways. *)
Lemma post_shape (req : httpd_req_t) (s : state) :
  (exists msg,
     post_response_handler req s =
     (ESP_FAIL, s, [(RespSendErr HTTPD_400_BAD_REQUEST msg, s)])) \/
  post_response_handler req s =
    (ESP_OK, accepted_state s,
     led_log green (set_lock_is_open true s) ++
     [(RespSendStr (list_byte_of_string "Unlocked"), accepted_state s)]) \/
  post_response_handler req s =
    (ESP_OK, relocked_state s,
     led_log blue s ++
     [(RespSendErr HTTPD_401_UNAUTHORIZED "Invalid token", hold_state s);
      (TaskDelay 4000, hold_state s)] ++
     led_log red (set_lock_is_open false (hold_state s))).
Proof.
  destruct (Z_lt_le_dec (checked_len req) sizeof_resp_buf) as [H|H].
  - destruct (Z_lt_le_dec 0 (recv_len req)) as [R|R].
    + destruct (list_eq_dec Byte.byte_eq_dec (cstr (received req))
                            (expected_text s)) as [E|E].
      * right; left. now apply post_accept.
      * right; right. now apply post_reject.
    + left. eexists. now apply post_no_data.
  - left. eexists. now apply post_too_long.
Qed.

(** *** What the LED write leaves alone *)

Lemma led_write_challenge (c : rgb) (s : state) :
  current_challenge (led_write c s) = current_challenge s.
Proof. unfold led_write. destruct (led_strip s) eqn:L; trivial. Qed.

Lemma led_write_key (c : rgb) (s : state) :
  pre_shared_key (led_write c s) = pre_shared_key s.
Proof. unfold led_write. destruct (led_strip s) eqn:L; trivial. Qed.

Lemma led_write_led_strip (c : rgb) (s : state) :
  led_strip (led_write c s) = led_strip s.
Proof. unfold led_write. destruct (led_strip s) eqn:L; trivial. Qed.

Lemma led_write_lock (c : rgb) (s : state) :
  lock_is_open (led_write c s) = lock_is_open s.
Proof. unfold led_write. destruct (led_strip s) eqn:L; trivial. Qed.

Lemma led_write_on (c : rgb) (s : state) :
  led_strip s = true -> led_write c s = set_pixel c s.
Proof. unfold led_write. now intros ->. Qed.

Lemma led_log_on (c : rgb) (s : state) :
  led_strip s = true -> led_log c s = [(LedRefresh c, set_pixel c s)].
Proof. unfold led_log. now intros ->. Qed.

Lemma led_log_challenge (c : rgb) (s : state) :
  Forall (fun es => current_challenge (snd es) = current_challenge s)
         (led_log c s).
Proof.
  unfold led_log. destruct (led_strip s); repeat constructor.
Qed.

Create Rewrite HintDb frame.
#[export] Hint Rewrite led_write_challenge led_write_key led_write_led_strip
  led_write_lock : frame.

Ltac frame :=
  unfold state_of, relocked_state, accepted_state, hold_state;
  cbn [fst snd];
  repeat progress
    (autorewrite with frame;
     cbn [set_lock_is_open set_pixel led_strip pixel pre_shared_key
          current_challenge lock_is_open]);
  try reflexivity.

(** *** Frame of [post_response_handler] *)

Lemma post_keeps_challenge (req : httpd_req_t) (s : state) :
  current_challenge (state_of (post_response_handler req s)) =
  current_challenge s.
Proof.
  destruct (post_shape req s) as [[msg E]|[E|E]]; rewrite E; frame.
Qed.

Lemma post_keeps_key (req : httpd_req_t) (s : state) :
  pre_shared_key (state_of (post_response_handler req s)) =
  pre_shared_key s.
Proof.
  destruct (post_shape req s) as [[msg E]|[E|E]]; rewrite E; frame.
Qed.

Lemma post_keeps_led_strip (req : httpd_req_t) (s : state) :
  led_strip (state_of (post_response_handler req s)) = led_strip s.
Proof.
  destruct (post_shape req s) as [[msg E]|[E|E]]; rewrite E; frame.
Qed.

Lemma post_trace_keeps_challenge (req : httpd_req_t) (s : state) :
  Forall (fun es => current_challenge (snd es) = current_challenge s)
         (trace_of (post_response_handler req s)).
Proof.
  destruct (post_shape req s) as [[msg E]|[E|E]]; rewrite E;
    unfold trace_of; cbn [fst snd].
  - repeat constructor.
  - apply Forall_app. split.
    + apply (led_log_challenge green (set_lock_is_open true s)).
    + repeat constructor. frame.
  - rewrite !Forall_app. repeat split.
    + apply led_log_challenge.
    + repeat constructor; frame.
    + pose proof (led_log_challenge red
                    (set_lock_is_open false (hold_state s))) as F.
      revert F. apply Forall_impl. intros es ->. frame.
Qed.

(** *** Frame of [get_challenge_handler] *)

(** *** Steps and runs *)

Lemma step_issue (rand_val : Z) (s : state) :
  step s (Issue rand_val) = issued_state rand_val s.
Proof. unfold step. now rewrite get_challenge_eq. Qed.

Lemma run_app (ops1 ops2 : list op) (s : state) :
  run (ops1 ++ ops2) s = run ops2 (run ops1 s).
Proof. apply fold_left_app. Qed.

Lemma run_snoc (ops : list op) (o : op) (s : state) :
  run (ops ++ [o]) s = step (run ops s) o.
Proof. now rewrite run_app. Qed.

Lemma step_keeps_key (o : op) (s : state) :
  pre_shared_key (step s o) = pre_shared_key s.
Proof.
  destruct o as [r|req].
  - now rewrite step_issue.
  - apply post_keeps_key.
Qed.

Lemma step_keeps_led_strip (o : op) (s : state) :
  led_strip (step s o) = led_strip s.
Proof.
  destruct o as [r|req].
  - now rewrite step_issue.
  - apply post_keeps_led_strip.
Qed.

Lemma run_keeps_key (ops : list op) (s : state) :
  pre_shared_key (run ops s) = pre_shared_key s.
Proof.
  revert s. induction ops as [|o ops IH]; intros s; [reflexivity|].
  cbn [run fold_left]. fold (run ops (step s o)).
  now rewrite IH, step_keeps_key.
Qed.

Lemma run_keeps_led_strip (ops : list op) (s : state) :
  led_strip (run ops s) = led_strip s.
Proof.
  revert s. induction ops as [|o ops IH]; intros s; [reflexivity|].
  cbn [run fold_left]. fold (run ops (step s o)).
  now rewrite IH, step_keeps_led_strip.
Qed.

Lemma run_secret (ops : list op) (s : state) :
  secret (run ops s) = secret s.
Proof. unfold secret. now rewrite run_keeps_key. Qed.

Lemma step_outstanding (o : op) (s : state) :
  outstanding (step s o) =
  match o with
  | Issue rand_val => token rand_val
  | Verify _ => outstanding s
  end.
Proof.
  destruct o as [r|req].
  - rewrite step_issue. apply outstanding_issued.
  - unfold outstanding, step. now rewrite post_keeps_challenge.
Qed.

Lemma run_outstanding (ops : list op) (s : state) :
  outstanding (run ops s) = last_token ops (outstanding s).
Proof.
  revert s. induction ops as [|o ops IH]; intros s; [reflexivity|].
  cbn [run fold_left]. fold (run ops (step s o)).
  rewrite IH, step_outstanding.
  destruct o; reflexivity.
Qed.

Lemma last_token_no_issue (ops : list op) (acc : list byte) :
  forallb is_verify ops = true -> last_token ops acc = acc.
Proof.
  induction ops as [|o ops IH]; intros H; [reflexivity|].
  destruct o as [r|req]; simpl in H; [discriminate|].
  now apply IH.
Qed.

(** *** The start state *)

Lemma init_secret : secret init_state = DEFAULT_KEY.
Proof. reflexivity. Qed.

Lemma init_outstanding : outstanding init_state = [].
Proof. reflexivity. Qed.

Lemma init_key_ok : key_ok init_state.
Proof.
  unfold key_ok, sizeof_pre_shared_key. rewrite init_secret.
  change (List.length DEFAULT_KEY) with 11%nat. lia.
Qed.

(** *** The arrays stay well formed *)

Lemma snprintf_has_nul (buf : list byte) (size : nat) (text : list byte) :
  In NUL (snprintf buf size text).
Proof.
  unfold snprintf. apply in_or_app. right. now left.
Qed.

Lemma arrays_ok_init : arrays_ok init_state.
Proof.
  unfold arrays_ok. repeat split; try reflexivity.
  - vm_compute. tauto.
  - vm_compute. tauto.
Qed.

Lemma arrays_ok_step (o : op) (s : state) :
  arrays_ok s -> arrays_ok (step s o).
Proof.
  unfold arrays_ok. intros (K1 & K2 & C1 & C2).
  rewrite step_keeps_key.
  destruct o as [r|req].
  - rewrite step_issue.
    unfold issued_state, set_current_challenge. cbn [current_challenge].
    repeat split; try assumption.
    + apply snprintf_length; [unfold sizeof_current_challenge; lia|].
      exact C1.
    + apply snprintf_has_nul.
  - unfold step. rewrite post_keeps_challenge. tauto.
Qed.

Lemma arrays_ok_run (ops : list op) (s : state) :
  arrays_ok s -> arrays_ok (run ops s).
Proof.
  revert s. induction ops as [|o ops IH]; intros s A; [exact A|].
  cbn [run fold_left]. fold (run ops (step s o)).
  now apply IH, arrays_ok_step.
Qed.

Lemma arrays_ok_key_ok (s : state) : arrays_ok s -> key_ok s.
Proof.
  unfold arrays_ok, key_ok, secret. intros (K1 & K2 & _).
  rewrite <- K1. now apply cstr_length_lt.
Qed.

(** Every state the server can be in when a request arrives. *)
Lemma reachable_ok (ops : list op) :
  key_ok (run ops init_state) /\ led_strip (run ops init_state) = true.
Proof.
  split.
  - apply arrays_ok_key_ok, arrays_ok_run, arrays_ok_init.
  - now rewrite run_keeps_led_strip.
Qed.

(** *** The response computed from a token is in bounds *)

Lemma response_no_nul (rand_val : Z) (s : state) :
  no_nul (response_for rand_val s).
Proof.
  apply no_nul_app. split; [apply token_no_nul | apply cstr_no_nul].
Qed.

Lemma response_in_bounds (rand_val : Z) (s : state) :
  key_ok s ->
  0 < Z.of_nat (List.length (response_for rand_val s)) < sizeof_resp_buf.
Proof.
  unfold key_ok, response_for, sizeof_pre_shared_key, sizeof_resp_buf.
  intros K. rewrite length_app.
  pose proof (token_length rand_val). lia.
Qed.

End RunFacts.

(* ===================================================================== *)
(** ** Properties of the protocol *)

Import CStr CStrFacts FmtFacts Lock HandlerFacts ProtocolFacts RunFacts.
Local Open Scope lock_scope.

(** *** Redeeming a challenge *)

Lemma verify_response_accepted (rand_val : Z) (s : state) :
  key_ok s ->
  outstanding s = token rand_val ->
  verify_outcome (request_of (response_for rand_val s)) s = Some Accepted.
Proof.
  intros K O.
  destruct (request_of_in_bounds (response_for rand_val s)
              (response_in_bounds rand_val s K)) as (H & R & G).
  apply outcome_accept; try assumption.
  rewrite G, O, cstr_id by apply response_no_nul.
  reflexivity.
Qed.

(** C1 (as amended).  The response computed from a freshly issued
    challenge and the secret is Accepted right after issuance, and it is
    Accepted again however many times the same request is repeated with no
    new challenge in between: verification leaves the stored challenge as it
    is. *)
Theorem response_accepted_and_replayable :
  forall (s : state) (rand_val : Z) (n : nat),
    key_ok s ->
    let s1 := step s (Issue rand_val) in
    let req := request_of (response_for rand_val s) in
    verify_outcome req s1 = Some Accepted /\
    verify_outcome req (run (repeat (Verify req) n) s1) = Some Accepted.
Proof.
  intros s rand_val n K s1 req.
  assert (S1 : secret s1 = secret s)
    by (unfold s1, secret; now rewrite step_keeps_key).
  assert (R : response_for rand_val s = response_for rand_val s1)
    by (unfold response_for; now rewrite S1).
  assert (K1 : key_ok s1) by (unfold key_ok; now rewrite S1).
  assert (O1 : outstanding s1 = token rand_val)
    by (unfold s1; apply (step_outstanding (Issue rand_val))).
  split.
  - unfold req. rewrite R. now apply verify_response_accepted.
  - set (sn := run (repeat (Verify req) n) s1).
    assert (Sn : secret sn = secret s)
      by (unfold sn; now rewrite run_secret).
    assert (On : outstanding sn = token rand_val).
    { unfold sn. rewrite run_outstanding, O1.
      apply last_token_no_issue.
      clear. induction n as [|n IH]; [reflexivity | exact IH]. }
    assert (Rn : response_for rand_val s = response_for rand_val sn)
      by (unfold response_for; now rewrite Sn).
    unfold req. rewrite Rn.
    apply verify_response_accepted; [|exact On].
    unfold key_ok. now rewrite Sn.
Qed.

Lemma response_accepted_and_replayable_witness :
  key_ok init_state /\
  verify_outcome (request_of (response_for 482913 init_state))
    (run [Verify (request_of (response_for 482913 init_state))]
         (step init_state (Issue 482913))) = Some Accepted.
Proof.
  split.
  - exact init_key_ok.
  - exact (proj2 (response_accepted_and_replayable
                    init_state 482913 1 init_key_ok)).
Defined.

(** C1, as stated, fails: with challenge 482913 issued at start-up, the
    second request with the same response is not Rejected. *)
Lemma second_verify_not_rejected :
  let s1 := step init_state (Issue 482913) in
  let req := request_of (response_for 482913 init_state) in
  ~ (verify_outcome req s1 = Some Accepted /\
     verify_outcome req (step s1 (Verify req)) = Some Rejected).
Proof.
  vm_compute. intros [_ H]. discriminate H.
Qed.

(** *** Verification before any challenge was issued *)

Lemma outstanding_before_issue (ops : list op) :
  forallb is_verify ops = true ->
  outstanding (run ops init_state) = [] /\
  secret (run ops init_state) = DEFAULT_KEY.
Proof.
  intros H. split.
  - rewrite run_outstanding, init_outstanding.
    now apply last_token_no_issue.
  - now rewrite run_secret, init_secret.
Qed.

(** C2 (as amended).  Before any challenge request the stored challenge is
    the empty string, so a request is checked against the secret alone: a
    non-empty payload shorter than the buffer is Accepted when the string it
    holds is the secret, and Rejected otherwise. *)
Theorem verify_before_issue :
  forall (ops : list op) (P : list byte),
    forallb is_verify ops = true ->
    0 < Z.of_nat (List.length P) < sizeof_resp_buf ->
    (cstr P = DEFAULT_KEY ->
     verify_outcome (request_of P) (run ops init_state) = Some Accepted) /\
    (cstr P <> DEFAULT_KEY ->
     verify_outcome (request_of P) (run ops init_state) = Some Rejected).
Proof.
  intros ops P V B.
  destruct (outstanding_before_issue ops V) as [O S].
  destruct (request_of_in_bounds P B) as (H & R & G).
  split; intros E.
  - apply outcome_accept; try assumption.
    now rewrite G, O, S.
  - apply outcome_reject; try assumption.
    now rewrite G, O, S.
Qed.

Lemma verify_before_issue_witness :
  forallb is_verify [Verify (request_of DEFAULT_KEY)] = true /\
  0 < Z.of_nat (List.length (list_byte_of_string "482913DEFAULT_KEY"))
    < sizeof_resp_buf /\
  verify_outcome (request_of (list_byte_of_string "482913DEFAULT_KEY"))
                 (run [Verify (request_of DEFAULT_KEY)] init_state)
  = Some Rejected.
Proof.
  assert (V : forallb is_verify [Verify (request_of DEFAULT_KEY)] = true)
    by reflexivity.
  assert (B : 0 < Z.of_nat
                    (List.length (list_byte_of_string "482913DEFAULT_KEY"))
              < sizeof_resp_buf) by (vm_compute; split; reflexivity).
  split; [exact V|]. split; [exact B|].
  refine (proj2 (verify_before_issue [Verify (request_of DEFAULT_KEY)]
                   (list_byte_of_string "482913DEFAULT_KEY") V B) _).
  vm_compute. discriminate.
Defined.

(** C2, as stated, fails: with no challenge ever issued, the secret alone
    is Accepted. *)
Lemma secret_alone_accepted_at_startup :
  verify_outcome (request_of DEFAULT_KEY) init_state = Some Accepted /\
  verify_outcome (request_of DEFAULT_KEY) init_state <> Some Rejected.
Proof.
  vm_compute. split; [reflexivity | discriminate].
Qed.

(** *** The decision *)

(** C3 (as amended).  For a non-empty payload shorter than the buffer the
    request is Accepted exactly when the string the payload holds (its
    bytes in front of the first NUL) is the stored challenge followed by the
    secret, and Rejected exactly when it is not.  For a payload without NUL
    bytes that is byte-for-byte equality; a strict extension of the expected
    value is Rejected when its first extra byte is not NUL, and Accepted
    when it is. *)
Theorem verify_decision :
  forall (s : state) (P : list byte),
    0 < Z.of_nat (List.length P) < sizeof_resp_buf ->
    (verify_outcome (request_of P) s = Some Accepted <->
     cstr P = outstanding s ++ secret s) /\
    (verify_outcome (request_of P) s = Some Rejected <->
     cstr P <> outstanding s ++ secret s) /\
    (no_nul P ->
     (verify_outcome (request_of P) s = Some Accepted <->
      P = outstanding s ++ secret s)) /\
    (forall b extra,
       b <> NUL -> P = (outstanding s ++ secret s) ++ b :: extra ->
       verify_outcome (request_of P) s = Some Rejected) /\
    (forall extra,
       P = (outstanding s ++ secret s) ++ NUL :: extra ->
       verify_outcome (request_of P) s = Some Accepted).
Proof.
  intros s P B.
  destruct (request_of_in_bounds P B) as (H & R & G).
  assert (N : no_nul (outstanding s ++ secret s))
    by (apply no_nul_app; split; apply cstr_no_nul).
  assert (A : verify_outcome (request_of P) s = Some Accepted <->
              cstr P = outstanding s ++ secret s).
  { split.
    - intros V.
      destruct (outcome_cases (request_of P) s)
        as [[V' _]|[[_ (_ & _ & E)]|[V' _]]];
        try (rewrite V in V'; discriminate).
      now rewrite G in E.
    - intros E. apply outcome_accept; try assumption. now rewrite G. }
  assert (J : verify_outcome (request_of P) s = Some Rejected <->
              cstr P <> outstanding s ++ secret s).
  { split.
    - intros V E. apply A in E. rewrite V in E. discriminate.
    - intros E. apply outcome_reject; try assumption. now rewrite G. }
  split; [exact A|]. split; [exact J|]. split; [|split].
  - intros NP. now rewrite A, cstr_id.
  - intros b extra Nb E. apply J.
    rewrite E, cstr_app by exact N. cbn [cstr].
    apply is_nul_false in Nb. rewrite Nb. intros C.
    rewrite <- (app_nil_r (outstanding s ++ secret s)) in C at 2.
    apply app_inv_head in C. discriminate.
  - intros extra E. apply A.
    rewrite E, cstr_app_nul. now apply cstr_id.
Qed.

Lemma verify_decision_witness :
  0 < Z.of_nat (List.length (list_byte_of_string "482913DEFAULT_KEY"))
    < sizeof_resp_buf /\
  verify_outcome (request_of (list_byte_of_string "482913DEFAULT_KEY"))
                 (step init_state (Issue 482913)) = Some Accepted.
Proof.
  assert (B : 0 < Z.of_nat
                    (List.length (list_byte_of_string "482913DEFAULT_KEY"))
              < sizeof_resp_buf) by (vm_compute; split; reflexivity).
  split; [exact B|].
  refine (proj2 (proj1 (verify_decision (step init_state (Issue 482913))
                   (list_byte_of_string "482913DEFAULT_KEY") B)) _).
  reflexivity.
Defined.

(** C3, as stated, fails: the expected value followed by a NUL byte and
    more bytes is not equal to the expected value, and is Accepted. *)
Lemma nul_extension_accepted :
  let s1 := step init_state (Issue 482913) in
  let P := list_byte_of_string "482913DEFAULT_KEY" ++
           [NUL] ++ list_byte_of_string "junk" in
  0 < Z.of_nat (List.length P) < sizeof_resp_buf /\
  P <> outstanding s1 ++ secret s1 /\
  verify_outcome (request_of P) s1 = Some Accepted.
Proof.
  vm_compute. repeat split; discriminate.
Qed.

(** *** What a verification does to the lock and the LED *)

Lemma rejected_shape (req : httpd_req_t) (s : state) :
  verify_outcome req s = Some Rejected ->
  post_response_handler req s =
  (ESP_OK, relocked_state s,
   led_log blue s ++
   [(RespSendErr HTTPD_401_UNAUTHORIZED "Invalid token", hold_state s);
    (TaskDelay 4000, hold_state s)] ++
   led_log red (set_lock_is_open false (hold_state s))).
Proof.
  unfold verify_outcome. intros V.
  destruct (post_shape req s) as [[msg E]|[E|E]]; [| |exact E];
    rewrite E in V; unfold trace_of in V; cbn [snd] in V;
    rewrite ?outcome_led_log in V; discriminate V.
Qed.

Lemma accepted_shape (req : httpd_req_t) (s : state) :
  verify_outcome req s = Some Accepted ->
  post_response_handler req s =
  (ESP_OK, accepted_state s,
   led_log green (set_lock_is_open true s) ++
   [(RespSendStr (list_byte_of_string "Unlocked"), accepted_state s)]).
Proof.
  unfold verify_outcome. intros V.
  destruct (post_shape req s) as [[msg E]|[E|E]]; [|exact E|];
    rewrite E in V; unfold trace_of in V; cbn [snd] in V;
    rewrite ?outcome_led_log in V; discriminate V.
Qed.

Lemma malformed_shape (req : httpd_req_t) (s : state) :
  verify_outcome req s = Some Malformed ->
  exists msg,
    post_response_handler req s =
    (ESP_FAIL, s, [(RespSendErr HTTPD_400_BAD_REQUEST msg, s)]).
Proof.
  unfold verify_outcome. intros V.
  destruct (post_shape req s) as [[msg E]|[E|E]];
    [now exists msg| |];
    rewrite E in V; unfold trace_of in V; cbn [snd] in V;
    rewrite ?outcome_led_log in V; discriminate V.
Qed.

(** C4.  A Rejected verification, from a locked or an unlocked state, with
    the LED configured: the LED is set to blue first, with the lock flag as
    it was; the 401 response is sent; the handler then waits 4000 ms with
    the LED still blue; after the wait the lock flag is cleared and the LED
    is set to red.  The handler ends Locked and red. *)
Theorem rejected_hold_then_locked :
  forall (s : state) (req : httpd_req_t),
    led_strip s = true ->
    verify_outcome req s = Some Rejected ->
    let s_hold := set_pixel blue s in
    let s_end := set_pixel red (set_lock_is_open false s_hold) in
    post_response_handler req s =
    (ESP_OK, s_end,
     [(LedRefresh blue, s_hold);
      (RespSendErr HTTPD_401_UNAUTHORIZED "Invalid token", s_hold);
      (TaskDelay 4000, s_hold);
      (LedRefresh red, s_end)]) /\
    pixel s_hold = blue /\
    lock_is_open s_hold = lock_is_open s /\
    lock_is_open s_end = false /\
    pixel s_end = red.
Proof.
  intros s req L V s_hold s_end.
  split; [|repeat split].
  rewrite (rejected_shape req s V).
  unfold relocked_state, hold_state.
  rewrite (led_log_on blue s L), (led_write_on blue s L).
  fold s_hold.
  assert (L' : led_strip (set_lock_is_open false s_hold) = true) by exact L.
  rewrite (led_log_on red _ L'), (led_write_on red _ L').
  reflexivity.
Qed.

Lemma rejected_hold_then_locked_witness :
  led_strip (step init_state (Issue 482913)) = true /\
  verify_outcome (request_of (list_byte_of_string "482913WRONGKEY"))
                 (step init_state (Issue 482913)) = Some Rejected /\
  lock_is_open
    (state_of (post_response_handler
                 (request_of (list_byte_of_string "482913WRONGKEY"))
                 (step init_state (Issue 482913)))) = false.
Proof.
  assert (L : led_strip (step init_state (Issue 482913)) = true)
    by reflexivity.
  assert (V : verify_outcome
                (request_of (list_byte_of_string "482913WRONGKEY"))
                (step init_state (Issue 482913)) = Some Rejected)
    by reflexivity.
  split; [exact L|]. split; [exact V|].
  rewrite (proj1 (rejected_hold_then_locked _ _ L V)).
  reflexivity.
Defined.

(** C5.  An Accepted verification, with the LED configured: the lock flag
    is set, the LED is set to green, and the client is sent the 200
    response "Unlocked"; the handler returns ESP_OK. *)
Theorem accepted_unlocks :
  forall (s : state) (req : httpd_req_t),
    led_strip s = true ->
    verify_outcome req s = Some Accepted ->
    let s_end := set_pixel green (set_lock_is_open true s) in
    post_response_handler req s =
    (ESP_OK, s_end,
     [(LedRefresh green, s_end);
      (RespSendStr (list_byte_of_string "Unlocked"), s_end)]) /\
    lock_is_open s_end = true /\
    pixel s_end = green.
Proof.
  intros s req L V s_end.
  split; [|split; reflexivity].
  rewrite (accepted_shape req s V).
  unfold accepted_state.
  assert (L' : led_strip (set_lock_is_open true s) = true) by exact L.
  rewrite (led_log_on green _ L'), (led_write_on green _ L').
  reflexivity.
Qed.

Lemma accepted_unlocks_witness :
  led_strip (step init_state (Issue 482913)) = true /\
  verify_outcome (request_of (list_byte_of_string "482913DEFAULT_KEY"))
                 (step init_state (Issue 482913)) = Some Accepted /\
  lock_is_open
    (state_of (post_response_handler
                 (request_of (list_byte_of_string "482913DEFAULT_KEY"))
                 (step init_state (Issue 482913)))) = true.
Proof.
  assert (L : led_strip (step init_state (Issue 482913)) = true)
    by reflexivity.
  assert (V : verify_outcome
                (request_of (list_byte_of_string "482913DEFAULT_KEY"))
                (step init_state (Issue 482913)) = Some Accepted)
    by reflexivity.
  split; [exact L|]. split; [exact V|].
  rewrite (proj1 (accepted_unlocks _ _ L V)).
  reflexivity.
Defined.

(** *** Malformed requests *)

(** C6.  A payload of 64 bytes or more, and an empty payload, is answered
    with 400 (Malformed, which is not Rejected); the handler returns
    ESP_FAIL, the globals are as before, the only event is the 400
    response, and what is returned and sent is the same whatever the
    challenge, the secret and the lock are: nothing was compared. *)
Theorem malformed_no_effect :
  forall (s : state) (P : list byte),
    sizeof_resp_buf <= Z.of_nat (List.length P) < Int.modulus \/ P = [] ->
    verify_outcome (request_of P) s = Some Malformed /\
    Malformed <> Rejected /\
    (exists msg,
       post_response_handler (request_of P) s =
       (ESP_FAIL, s, [(RespSendErr HTTPD_400_BAD_REQUEST msg, s)])) /\
    (forall s',
       result_of (post_response_handler (request_of P) s') =
       result_of (post_response_handler (request_of P) s) /\
       events (trace_of (post_response_handler (request_of P) s')) =
       events (trace_of (post_response_handler (request_of P) s))).
Proof.
  intros s P H.
  assert (X : (forall s0,
                 post_response_handler (request_of P) s0 =
                 (ESP_FAIL, s0,
                  [(RespSendErr HTTPD_400_BAD_REQUEST "Response too long",
                    s0)])) \/
              (forall s0,
                 post_response_handler (request_of P) s0 =
                 (ESP_FAIL, s0,
                  [(RespSendErr HTTPD_400_BAD_REQUEST
                                "No response data received", s0)]))).
  { destruct H as [[Lo Hi]|E].
    - left. intros s0. apply post_too_long.
      now rewrite request_of_checked_len.
    - subst P. right. intros s0.
      apply post_no_data; vm_compute; congruence. }
  split; [|split; [discriminate|split]].
  - unfold verify_outcome. destruct X as [X|X]; now rewrite X.
  - destruct X as [X|X]; eexists; apply X.
  - intros s'. destruct X as [X|X]; rewrite !X; split; reflexivity.
Qed.

Lemma malformed_no_effect_witness :
  (sizeof_resp_buf <= Z.of_nat (List.length (repeat x41 65)) < Int.modulus
   \/ repeat x41 65 = []) /\
  verify_outcome (request_of (repeat x41 65)) init_state = Some Malformed.
Proof.
  assert (H : sizeof_resp_buf <= Z.of_nat (List.length (repeat x41 65))
              < Int.modulus \/ repeat x41 65 = []).
  { left. vm_compute. split; [discriminate | reflexivity]. }
  split; [exact H|].
  exact (proj1 (malformed_no_effect init_state (repeat x41 65) H)).
Defined.

(** *** A new challenge replaces the old one *)

(** C7 (as amended).  After a challenge for [r_old] and then a challenge
    for [r_new] whose value, as a 32-bit unsigned number, differs from
    [r_old], the response computed from the old token is Rejected. *)
Theorem superseded_challenge_rejected :
  forall (s : state) (r_old r_new : Z),
    key_ok s ->
    Int.to_unsigned r_new <> Int.to_unsigned r_old ->
    verify_outcome (request_of (response_for r_old s))
                   (run [Issue r_old; Issue r_new] s) = Some Rejected.
Proof.
  intros s r_old r_new K D.
  set (s2 := run [Issue r_old; Issue r_new] s).
  assert (S2 : secret s2 = secret s) by (unfold s2; apply run_secret).
  assert (O2 : outstanding s2 = token r_new)
    by (unfold s2; now rewrite run_outstanding).
  destruct (request_of_in_bounds (response_for r_old s)
              (response_in_bounds r_old s K)) as (H & R & G).
  apply outcome_reject; try assumption.
  rewrite G, O2, S2, cstr_id by apply response_no_nul.
  unfold response_for. intros E.
  apply app_inv_tail, token_inj in E. congruence.
Qed.

Lemma superseded_challenge_rejected_witness :
  key_ok init_state /\
  Int.to_unsigned 7 <> Int.to_unsigned 482913 /\
  verify_outcome (request_of (response_for 482913 init_state))
                 (run [Issue 482913; Issue 7] init_state) = Some Rejected.
Proof.
  assert (D : Int.to_unsigned 7 <> Int.to_unsigned 482913)
    by (vm_compute; discriminate).
  split; [exact init_key_ok|]. split; [exact D|].
  exact (superseded_challenge_rejected init_state 482913 7 init_key_ok D).
Defined.

(** C7, as stated, fails: when the random source returns the same value
    for the new challenge, the response to the old one is Accepted. *)
Lemma same_value_reissued_accepted :
  verify_outcome (request_of (response_for 482913 init_state))
                 (run [Issue 482913; Issue 482913] init_state)
  = Some Accepted /\
  verify_outcome (request_of (response_for 482913 init_state))
                 (run [Issue 482913; Issue 482913] init_state)
  <> Some Rejected.
Proof.
  vm_compute. split; [reflexivity | discriminate].
Qed.

(** *** When the lock is open *)

Lemma step_lock (s : state) (o : op) :
  lock_is_open (step s o) =
  match o with
  | Issue _ => lock_is_open s
  | Verify req =>
      match verify_outcome req s with
      | Some Accepted => true
      | Some Rejected => false
      | _ => lock_is_open s
      end
  end.
Proof.
  destruct o as [r|req].
  - now rewrite step_issue.
  - unfold step.
    destruct (outcome_cases req s) as [[V _]|[[V _]|[V _]]]; rewrite V.
    + destruct (malformed_shape req s V) as [msg E]. now rewrite E.
    + rewrite (accepted_shape req s V). now frame.
    + rewrite (rejected_shape req s V). now frame.
Qed.

Lemma snoc_split {A} (l l1 l2 : list A) (x : A) :
  l ++ [x] = l1 ++ l2 ->
  (l2 = [] /\ l1 = l ++ [x]) \/
  (exists l2', l2 = l2' ++ [x] /\ l = l1 ++ l2').
Proof.
  intros E.
  destruct l2 as [|y l2] using rev_ind.
  - left. rewrite app_nil_r in E. auto.
  - right. rewrite app_assoc in E.
    apply app_inj_tail in E. destruct E as [E1 E2]. subst.
    now exists l2.
Qed.

(** C8.  The lock starts closed.  A step from a closed lock to an open one
    is a verification that was Accepted: a challenge request and a
    Malformed verification leave the flag as it was, and a Rejected one
    clears it.  So whenever the lock is open after a run of requests from
    start-up, the run holds an Accepted verification, made with the lock
    closed, since which the lock has been open after every request. *)
Theorem unlocked_only_after_accept :
  lock_is_open init_state = false /\
  (forall (s : state) (o : op),
     lock_is_open s = false -> lock_is_open (step s o) = true ->
     exists req, o = Verify req /\ verify_outcome req s = Some Accepted) /\
  (forall (s : state) (rand_val : Z),
     lock_is_open (step s (Issue rand_val)) = lock_is_open s) /\
  (forall (s : state) (req : httpd_req_t),
     verify_outcome req s = Some Malformed ->
     lock_is_open (step s (Verify req)) = lock_is_open s) /\
  (forall (s : state) (req : httpd_req_t),
     verify_outcome req s = Some Rejected ->
     lock_is_open (step s (Verify req)) = false) /\
  (forall ops : list op,
     lock_is_open (run ops init_state) = true ->
     exists pre req post,
       ops = pre ++ Verify req :: post /\
       lock_is_open (run pre init_state) = false /\
       verify_outcome req (run pre init_state) = Some Accepted /\
       forall post1 post2,
         post = post1 ++ post2 ->
         lock_is_open (run (pre ++ Verify req :: post1) init_state) = true).
Proof.
  assert (T : forall (s : state) (o : op),
             lock_is_open s = false -> lock_is_open (step s o) = true ->
             exists req, o = Verify req /\
                         verify_outcome req s = Some Accepted).
  { intros s o L U. rewrite step_lock in U.
    destruct o as [r|req]; [congruence|].
    exists req. split; [reflexivity|].
    destruct (verify_outcome req s) as [[| |]|]; congruence. }
  split; [reflexivity|]. split; [exact T|].
  split; [intros s r; apply (step_lock s (Issue r))|].
  split; [intros s req V; now rewrite step_lock, V|].
  split; [intros s req V; now rewrite step_lock, V|].
  induction ops as [|o ops IH] using rev_ind; intros U.
  - discriminate U.
  - rewrite run_snoc in U.
    destruct (lock_is_open (run ops init_state)) eqn:L.
    + destruct (IH eq_refl) as (pre & req & post & E & Lp & V & Open).
      exists pre, req, (post ++ [o]).
      split; [now rewrite E, <- app_assoc|].
      split; [exact Lp|]. split; [exact V|].
      intros post1 post2 Q.
      destruct (snoc_split _ _ _ _ Q) as [[_ Q1]|[p2 [_ Q1]]].
      * subst post1.
        replace (pre ++ Verify req :: post ++ [o])
          with (ops ++ [o]) by (now rewrite E, <- app_assoc).
        now rewrite run_snoc.
      * now apply (Open post1 p2).
    + destruct (T _ _ L U) as [req [-> V]].
      exists ops, req, [].
      split; [reflexivity|]. split; [exact L|]. split; [exact V|].
      intros post1 post2 Q.
      symmetry in Q. apply app_eq_nil in Q. destruct Q as [-> _].
      now rewrite run_snoc.
Qed.

Lemma unlocked_only_after_accept_witness :
  lock_is_open
    (run [Issue 482913; Verify (request_of (response_for 482913 init_state));
          Issue 7] init_state) = true /\
  exists pre req post,
    [Issue 482913; Verify (request_of (response_for 482913 init_state));
     Issue 7] = pre ++ Verify req :: post /\
    verify_outcome req (run pre init_state) = Some Accepted.
Proof.
  split; [reflexivity|].
  destruct (proj2 (proj2 (proj2 (proj2 (proj2 unlocked_only_after_accept))))
              [Issue 482913;
               Verify (request_of (response_for 482913 init_state));
               Issue 7] eq_refl)
    as (pre & req & post & E & _ & V & _).
  exists pre, req, post. split; [exact E | exact V].
Defined.

(** *** What a challenge request changes *)

(** C9.  Two challenge requests in a row: each returns ESP_OK and sends the
    token of its random value as text/plain; afterwards the stored
    challenge is the second token, and the lock flag, the LED colour, the
    key and the LED handle are as before: the globals differ from the
    earlier ones in the challenge array only. *)
Theorem issue_twice_frame :
  forall (s : state) (r1 r2 : Z),
    let a := get_challenge_handler r1 s in
    let b := get_challenge_handler r2 (state_of a) in
    result_of a = ESP_OK /\
    result_of b = ESP_OK /\
    events (trace_of a) = [RespSetType "text/plain"; RespSendStr (token r1)] /\
    events (trace_of b) = [RespSetType "text/plain"; RespSendStr (token r2)] /\
    outstanding (state_of a) = token r1 /\
    outstanding (state_of b) = token r2 /\
    lock_is_open (state_of b) = lock_is_open s /\
    pixel (state_of b) = pixel s /\
    state_of b = set_current_challenge (current_challenge (state_of b)) s.
Proof.
  intros s r1 r2 a b. unfold b, a.
  rewrite !get_challenge_eq.
  unfold result_of, state_of, trace_of, events. cbn [fst snd map].
  rewrite !outstanding_issued.
  repeat split.
Qed.

(** *** Who writes the challenge *)

(** C10.  A verification leaves the challenge array as it was, at its end
    and at every event on the way, whichever branch it takes; so after any
    run of requests the stored challenge is the token of the last challenge
    request of the run, and the string the array held before the run when
    there is none. *)
Theorem challenge_written_only_by_issue :
  (forall (s : state) (req : httpd_req_t),
     current_challenge (state_of (post_response_handler req s)) =
     current_challenge s /\
     Forall (fun es => current_challenge (snd es) = current_challenge s)
            (trace_of (post_response_handler req s))) /\
  (forall (ops : list op) (s : state),
     outstanding (run ops s) = last_token ops (outstanding s)) /\
  (forall (ops : list op) (rand_val : Z) (reqs : list httpd_req_t) (s : state),
     outstanding (run (ops ++ Issue rand_val :: map Verify reqs) s) =
     token rand_val).
Proof.
  split; [|split].
  - intros s req. split.
    + apply post_keeps_challenge.
    + apply post_trace_keeps_challenge.
  - apply run_outstanding.
  - intros ops r reqs s.
    rewrite run_app. cbn [run fold_left].
    fold (run (map Verify reqs) (step (run ops s) (Issue r))).
    rewrite run_outstanding, (step_outstanding (Issue r)).
    apply last_token_no_issue.
    induction reqs as [|q reqs IH]; [reflexivity | exact IH].
Qed.

(* ===================================================================== *)
(** ** Further properties of the handlers *)

Import Log.

(** *** The challenge token *)

Lemma is_digit_digit (d : Z) : 0 <= d <= 9 -> is_digit (digit d) = true.
Proof.
  intros H.
  destruct (digit_cases d H) as [E|[E|[E|[E|[E|[E|[E|[E|[E|E]]]]]]]]];
    subst d; reflexivity.
Qed.

Lemma utoa_rev_digits (fuel : nat) (v : Z) :
  Forall (fun b => is_digit b = true) (utoa_rev fuel v).
Proof.
  revert v. induction fuel as [|fuel IH]; intros v; cbn [utoa_rev].
  - constructor.
  - constructor.
    + apply is_digit_digit. pose proof (Z.mod_pos_bound v 10). lia.
    + destruct (v / 10 =? 0); [constructor | apply IH].
Qed.

(** The token sent for a random value is its 32-bit unsigned value in
    decimal: one to ten digit characters and nothing else, which read back
    as a number give that value; so two random values get the same token
    exactly when they agree as 32-bit numbers. *)
Theorem token_decimal_roundtrip :
  forall r1 r2 : Z,
    (1 <= List.length (token r1) <= 10)%nat /\
    forallb is_digit (token r1) = true /\
    atou (token r1) = Int.to_unsigned r1 /\
    (token r1 = token r2 <-> Int.to_unsigned r1 = Int.to_unsigned r2).
Proof.
  intros r1 r2.
  split; [apply token_length|]. split; [|split].
  - apply forallb_forall. intros b I.
    unfold token, fmt_u in I. apply in_rev in I.
    pose proof (utoa_rev_digits 10 (Int.to_unsigned r1)) as F.
    rewrite Forall_forall in F. now apply F.
  - unfold atou, token, fmt_u. rewrite rev_involutive.
    apply atou_utoa_rev.
    unfold Int.to_unsigned, Int.modulus.
    pose proof (Z.mod_pos_bound r1 (2 ^ 32)). simpl Z.of_nat. lia.
  - split; [apply token_inj|].
    unfold token. now intros ->.
Qed.

(** *** Bounds *)

(** When both arrays hold their terminator, [snprintf] into the 128-byte
    [expected] never cuts the challenge and key short: what is compared is
    the whole of challenge followed by key, at most 94 bytes. *)
Theorem expected_never_truncated :
  forall s : state,
    arrays_ok s ->
    expected_text s = outstanding s ++ secret s /\
    (List.length (outstanding s ++ secret s) <= 94)%nat.
Proof.
  intros s (K1 & K2 & C1 & C2).
  pose proof (cstr_length_lt _ K2) as LK.
  pose proof (cstr_length_lt _ C2) as LC.
  rewrite K1 in LK. rewrite C1 in LC.
  unfold sizeof_pre_shared_key in LK. unfold sizeof_current_challenge in LC.
  assert (L : (List.length (outstanding s ++ secret s) <= 94)%nat).
  { rewrite length_app. unfold outstanding, secret. lia. }
  split; [|exact L].
  unfold expected_text, sizeof_expected.
  apply firstn_all2. lia.
Qed.

Lemma expected_never_truncated_witness :
  arrays_ok init_state /\
  expected_text init_state = outstanding init_state ++ secret init_state.
Proof.
  split; [exact arrays_ok_init|].
  exact (proj1 (expected_never_truncated init_state arrays_ok_init)).
Defined.

Lemma last_token_length (ops : list op) (acc : list byte) :
  (List.length acc <= 10)%nat ->
  (List.length (last_token ops acc) <= 10)%nat.
Proof.
  revert acc. induction ops as [|o ops IH]; intros acc H; [exact H|].
  destruct o as [r|req]; cbn [last_token]; apply IH; [|exact H].
  apply token_length.
Qed.

(** After any run of requests from start-up the two arrays still have
    their declared sizes and their terminators, the key is still
    "DEFAULT_KEY", the LED handle is still set, and the stored challenge has
    at most ten characters: the response that matches has at most 21 bytes
    and fits the 64-byte receive buffer. *)
Theorem arrays_stay_well_formed :
  forall ops : list op,
    arrays_ok (run ops init_state) /\
    pre_shared_key (run ops init_state) = pre_shared_key init_state /\
    secret (run ops init_state) = DEFAULT_KEY /\
    led_strip (run ops init_state) = true /\
    (List.length (outstanding (run ops init_state)) <= 10)%nat /\
    Z.of_nat (List.length (outstanding (run ops init_state) ++
                           secret (run ops init_state))) < sizeof_resp_buf.
Proof.
  intros ops.
  assert (O : (List.length (outstanding (run ops init_state)) <= 10)%nat).
  { rewrite run_outstanding. apply last_token_length.
    rewrite init_outstanding. simpl. lia. }
  assert (S : secret (run ops init_state) = DEFAULT_KEY)
    by (now rewrite run_secret, init_secret).
  split; [apply arrays_ok_run, arrays_ok_init|].
  split; [apply run_keeps_key|].
  split; [exact S|].
  split; [apply reachable_ok|].
  split; [exact O|].
  rewrite length_app, S.
  change (List.length DEFAULT_KEY) with 11%nat.
  unfold sizeof_resp_buf. lia.
Qed.

(** *** The LED at rest *)

Lemma step_led_mirror (s : state) (o : op) :
  led_strip s = true ->
  pixel s = led_of_lock (lock_is_open s) ->
  pixel (step s o) = led_of_lock (lock_is_open (step s o)).
Proof.
  intros L P.
  destruct o as [r|req].
  - rewrite step_issue. exact P.
  - unfold step.
    assert (L1 : led_strip (set_lock_is_open true s) = true) by exact L.
    assert (L2 : led_strip (set_lock_is_open false (set_pixel blue s))
                 = true) by exact L.
    destruct (post_shape req s) as [[msg E]|[E|E]]; rewrite E;
      unfold state_of, accepted_state, relocked_state, hold_state;
      cbn [fst snd].
    + exact P.
    + now rewrite (led_write_on green _ L1).
    + now rewrite (led_write_on blue s L), (led_write_on red _ L2).
Qed.

(** Between requests the LED shows the lock: after any run of requests
    from start-up it is green when the lock flag is set and red when it is
    not; blue is only ever shown inside a Rejected verification. *)
Theorem led_mirrors_lock :
  forall ops : list op,
    pixel (run ops init_state) =
    led_of_lock (lock_is_open (run ops init_state)).
Proof.
  induction ops as [|o ops IH] using rev_ind; [reflexivity|].
  rewrite run_snoc.
  apply step_led_mirror; [apply reachable_ok | exact IH].
Qed.

(** *** One answer per request *)

Lemma responses_app (t1 t2 : trace) :
  responses (t1 ++ t2) = responses t1 ++ responses t2.
Proof.
  unfold responses, events. now rewrite map_app, filter_app.
Qed.

Lemma responses_led_log (c : rgb) (s : state) : responses (led_log c s) = [].
Proof. unfold led_log. now destruct (led_strip s). Qed.

Lemma step_handle (s : state) (o : op) : step s o = state_of (handle o s).
Proof. now destruct o. Qed.

Lemma handle_one_response (o : op) (s : state) :
  List.length (responses (trace_of (handle o s))) = 1%nat.
Proof.
  destruct o as [r|req]; cbn [handle].
  - now rewrite get_challenge_eq.
  - destruct (post_shape req s) as [[msg E]|[E|E]]; rewrite E;
      unfold trace_of; cbn [snd];
      rewrite ?responses_app, ?responses_led_log; reflexivity.
Qed.

(** Every request is answered exactly once: the log of a run holds as many
    HTTP responses as the run has requests.  A verification returns
    ESP_FAIL exactly when its answer is the 400 of a Malformed request, and
    ESP_OK otherwise. *)
Theorem one_response_per_request :
  (forall (ops : list op) (s : state),
     List.length (responses (run_trace ops s)) = List.length ops) /\
  (forall (req : httpd_req_t) (s : state),
     result_of (post_response_handler req s) = ESP_FAIL <->
     verify_outcome req s = Some Malformed).
Proof.
  split.
  - induction ops as [|o ops IH]; intros s; [reflexivity|].
    cbn [run_trace]. rewrite responses_app, length_app.
    rewrite handle_one_response, IH. reflexivity.
  - intros req s.
    destruct (outcome_cases req s) as [[V _]|[[V _]|[V _]]]; rewrite V.
    + destruct (malformed_shape req s V) as [msg E]. rewrite E.
      split; reflexivity.
    + rewrite (accepted_shape req s V). split; discriminate.
    + rewrite (rejected_shape req s V). split; discriminate.
Qed.

(** *** Bodies that do not arrive, and bodies that arrive in part *)

(** When reading the body fails (socket error or timeout), when the
    connection delivers nothing, or when the request announces a length of
    zero, the answer is 400 "No response data received" with ESP_FAIL, and
    the globals are untouched, provided the announced length is below the
    buffer size. *)
Theorem no_body_is_malformed :
  forall (req : httpd_req_t) (s : state),
    checked_len req < sizeof_resp_buf ->
    (exists e, sock req = SockErr e) \/ sock req = SockBytes [] \/
    Int.to_int (content_len req) = 0 ->
    post_response_handler req s =
    (ESP_FAIL, s,
     [(RespSendErr HTTPD_400_BAD_REQUEST "No response data received", s)]).
Proof.
  intros req s H C.
  apply post_no_data; [exact H|].
  unfold recv_len, httpd_req_recv.
  destruct C as [[e E]|[E|E]].
  - rewrite E. destruct e; cbn; lia.
  - rewrite E. cbn [fst]. rewrite firstn_nil. simpl. lia.
  - rewrite E. destruct (sock req) as [e|bs].
    + destruct e; cbn; lia.
    + cbn. lia.
Qed.

Lemma no_body_is_malformed_witness :
  checked_len (mkReq 17 (SockErr HTTPD_SOCK_ERR_TIMEOUT)) < sizeof_resp_buf /\
  verify_outcome (mkReq 17 (SockErr HTTPD_SOCK_ERR_TIMEOUT)) init_state
  = Some Malformed.
Proof.
  assert (H : checked_len (mkReq 17 (SockErr HTTPD_SOCK_ERR_TIMEOUT))
              < sizeof_resp_buf) by reflexivity.
  split; [exact H|].
  unfold verify_outcome.
  rewrite (no_body_is_malformed _ init_state H
             (or_introl (ex_intro _ HTTPD_SOCK_ERR_TIMEOUT eq_refl))).
  reflexivity.
Defined.

Lemma outcome_iff (req : httpd_req_t) (s : state) :
  checked_len req < sizeof_resp_buf ->
  0 < recv_len req ->
  (verify_outcome req s = Some Accepted <->
   cstr (received req) = outstanding s ++ secret s) /\
  (verify_outcome req s = Some Rejected <->
   cstr (received req) <> outstanding s ++ secret s).
Proof.
  intros H R.
  destruct (list_eq_dec Byte.byte_eq_dec (cstr (received req))
                        (outstanding s ++ secret s)) as [E|E].
  - rewrite (outcome_accept req s H R E).
    split; split; try tauto; try discriminate.
  - rewrite (outcome_reject req s H R E).
    split; split; try tauto; try discriminate.
Qed.

(** Only the bytes read count.  For a request that announces a length [n]
    between 1 and 63 and whose socket delivers a non-empty [bs], the
    handler's single read takes the first [n] bytes of [bs] (all of [bs]
    when fewer arrived) and decides on those: Accepted exactly when the
    string they hold is the challenge followed by the key, Rejected
    otherwise; the rest of the body is never looked at. *)
Theorem decision_on_bytes_read :
  forall (s : state) (n : Z) (bs : list byte),
    0 < n < sizeof_resp_buf ->
    bs <> [] ->
    let req := mkReq n (SockBytes bs) in
    received req = firstn (Z.to_nat n) bs /\
    (verify_outcome req s = Some Accepted <->
     cstr (firstn (Z.to_nat n) bs) = outstanding s ++ secret s) /\
    (verify_outcome req s = Some Rejected <->
     cstr (firstn (Z.to_nat n) bs) <> outstanding s ++ secret s).
Proof.
  intros s n bs N B req. unfold sizeof_resp_buf in N.
  assert (T : Int.to_int n = n) by (apply to_int_small; lia).
  assert (G : received req = firstn (Z.to_nat n) bs).
  { unfold received, req, httpd_req_recv. cbn [content_len sock snd].
    now rewrite T. }
  assert (H : checked_len req < sizeof_resp_buf).
  { unfold checked_len, req. cbn [content_len].
    rewrite to_unsigned_to_int. unfold Int.modulus, sizeof_resp_buf.
    rewrite Z.mod_small; lia. }
  assert (R : 0 < recv_len req).
  { unfold recv_len, req, httpd_req_recv. cbn [content_len sock fst].
    rewrite T, length_firstn.
    destruct bs as [|b bs]; [congruence|]. cbn [List.length]. lia. }
  split; [exact G|].
  rewrite <- G. now apply outcome_iff.
Qed.

Lemma decision_on_bytes_read_witness :
  0 < 17 < sizeof_resp_buf /\
  list_byte_of_string "482913DEFAULT_KEY and more" <> [] /\
  verify_outcome
    (mkReq 17 (SockBytes (list_byte_of_string "482913DEFAULT_KEY and more")))
    (step init_state (Issue 482913)) = Some Accepted.
Proof.
  assert (N : 0 < 17 < sizeof_resp_buf) by (split; reflexivity).
  assert (B : list_byte_of_string "482913DEFAULT_KEY and more" <> [])
    by discriminate.
  split; [exact N|]. split; [exact B|].
  apply (proj1 (proj2 (decision_on_bytes_read
                         (step init_state (Issue 482913)) 17 _ N B))).
  reflexivity.
Defined.

(** *** The cost of a wrong answer *)

Lemma total_delay_app (t1 t2 : trace) :
  total_delay (t1 ++ t2) = total_delay t1 + total_delay t2.
Proof.
  unfold total_delay, events. rewrite map_app.
  induction (map fst t1) as [|e l IH]; cbn [app fold_right]; lia.
Qed.

Lemma total_delay_led_log (c : rgb) (s : state) :
  total_delay (led_log c s) = 0.
Proof. unfold led_log. now destruct (led_strip s). Qed.

Lemma handle_delay (o : op) (s : state) :
  total_delay (trace_of (handle o s)) =
  4000 * rejections [o] s.
Proof.
  destruct o as [r|req]; cbn [handle rejections].
  - now rewrite get_challenge_eq.
  - destruct (outcome_cases req s) as [[V _]|[[V _]|[V _]]]; rewrite V.
    + destruct (malformed_shape req s V) as [msg E]. now rewrite E.
    + rewrite (accepted_shape req s V). unfold trace_of. cbn [snd].
      rewrite total_delay_app, total_delay_led_log. reflexivity.
    + rewrite (rejected_shape req s V). unfold trace_of. cbn [snd].
      rewrite !total_delay_app, !total_delay_led_log. reflexivity.
Qed.

(** The server waits 4000 ms for each Rejected verification and for
    nothing else: over any run of requests, from any state, the time spent
    in [vTaskDelay] is 4000 ms times the number of Rejected verifications;
    challenge requests, Accepted and Malformed verifications add none. *)
Theorem delay_is_per_rejection :
  forall (ops : list op) (s : state),
    total_delay (run_trace ops s) = 4000 * rejections ops s.
Proof.
  induction ops as [|o ops IH]; intros s; [reflexivity|].
  cbn [run_trace]. rewrite total_delay_app, IH, handle_delay.
  rewrite <- step_handle.
  cbn [rejections]. lia.
Qed.

(** *** What the decision looks at *)

(** The outcome of a verification depends on the globals only through the
    two strings held by the challenge and key arrays: states that agree on
    them give the same outcome for every request, whatever their lock
    flag, LED colour, LED handle, and whatever bytes lie behind the
    terminators. *)
Theorem decision_reads_two_strings :
  forall (req : httpd_req_t) (s s' : state),
    outstanding s = outstanding s' ->
    secret s = secret s' ->
    verify_outcome req s = verify_outcome req s'.
Proof.
  intros req s s' O K.
  destruct (outcome_cases req s) as [[V C]|[[V (H & R & E)]|[V (H & R & E)]]];
    rewrite V; symmetry.
  - destruct C as [C|C].
    + now apply outcome_too_long.
    + destruct (Z_lt_le_dec (checked_len req) sizeof_resp_buf).
      * now apply outcome_no_data.
      * now apply outcome_too_long.
  - apply outcome_accept; try assumption. now rewrite <- O, <- K.
  - apply outcome_reject; try assumption. now rewrite <- O, <- K.
Qed.

Lemma decision_reads_two_strings_witness :
  outstanding (run [Issue 4294967295; Issue 7] init_state)
  = outstanding (run [Issue 7; Verify (request_of (response_for 7 init_state))]
                     init_state) /\
  secret (run [Issue 4294967295; Issue 7] init_state)
  = secret (run [Issue 7; Verify (request_of (response_for 7 init_state))]
                init_state) /\
  run [Issue 4294967295; Issue 7] init_state
  <> run [Issue 7; Verify (request_of (response_for 7 init_state))]
         init_state /\
  verify_outcome (request_of (response_for 7 init_state))
                 (run [Issue 4294967295; Issue 7] init_state)
  = verify_outcome (request_of (response_for 7 init_state))
      (run [Issue 7; Verify (request_of (response_for 7 init_state))]
           init_state).
Proof.
  assert (O : outstanding (run [Issue 4294967295; Issue 7] init_state)
              = outstanding
                  (run [Issue 7;
                        Verify (request_of (response_for 7 init_state))]
                       init_state)) by reflexivity.
  assert (K : secret (run [Issue 4294967295; Issue 7] init_state)
              = secret
                  (run [Issue 7;
                        Verify (request_of (response_for 7 init_state))]
                       init_state)) by reflexivity.
  split; [exact O|]. split; [exact K|]. split.
  - vm_compute. discriminate.
  - exact (decision_reads_two_strings _ _ _ O K).
Defined.

(** *** The two listings *)

(** The second listing's [post_response_handler] does the same as the
    first: for every request and state it returns the same code, leaves
    the same globals, gives the same outcome and logs the same number of
    events; the logs are equal unless the request is Malformed, where only
    the text of the 400 differs. *)
Theorem listings_agree :
  forall (req : httpd_req_t) (s : state),
    result_of (MainZh.post_response_handler req s) =
      result_of (post_response_handler req s) /\
    state_of (MainZh.post_response_handler req s) =
      state_of (post_response_handler req s) /\
    outcome_of_trace (trace_of (MainZh.post_response_handler req s)) =
      verify_outcome req s /\
    List.length (trace_of (MainZh.post_response_handler req s)) =
      List.length (trace_of (post_response_handler req s)) /\
    (verify_outcome req s <> Some Malformed ->
     MainZh.post_response_handler req s = post_response_handler req s).
Proof.
  intros req s.
  unfold verify_outcome, MainZh.post_response_handler, post_response_handler.
  destruct (Int.to_unsigned (Int.to_int (content_len req))
            >=? sizeof_resp_buf).
  - repeat split. intros N. now contradiction N.
  - destruct (httpd_req_recv req (Int.to_int (content_len req)))
      as [n got].
    destruct (n <=? 0).
    + repeat split. intros N. now contradiction N.
    + repeat split.
Qed.

Lemma listings_agree_witness :
  verify_outcome (request_of (response_for 7 init_state))
                 (step init_state (Issue 7)) <> Some Malformed /\
  MainZh.post_response_handler (request_of (response_for 7 init_state))
                               (step init_state (Issue 7))
  = post_response_handler (request_of (response_for 7 init_state))
                          (step init_state (Issue 7)).
Proof.
  assert (N : verify_outcome (request_of (response_for 7 init_state))
                             (step init_state (Issue 7)) <> Some Malformed)
    by (vm_compute; discriminate).
  split; [exact N|].
  exact (proj2 (proj2 (proj2 (proj2 (listings_agree _ _)))) N).
Defined.

(* ===================================================================== *)
(** ** The page against the server *)

Import Page.

Lemma fetched_led_log (c : rgb) (s : state) (t : trace) :
  fetched (led_log c s ++ t) = fetched t.
Proof. unfold led_log. now destruct (led_strip s). Qed.

Lemma fetched_challenge (rand_val : Z) (s : state) :
  fetched (trace_of (get_challenge_handler rand_val s)) =
  Some (true, token rand_val).
Proof. now rewrite get_challenge_eq. Qed.

Lemma fetched_accepted (req : httpd_req_t) (s : state) :
  verify_outcome req s = Some Accepted ->
  fetched (trace_of (post_response_handler req s)) =
  Some (true, list_byte_of_string "Unlocked") /\
  lock_is_open (state_of (post_response_handler req s)) = true.
Proof.
  intros V. rewrite (accepted_shape req s V).
  unfold trace_of, state_of, accepted_state. cbn [fst snd].
  now rewrite fetched_led_log, led_write_lock.
Qed.

Lemma fetched_rejected (req : httpd_req_t) (s : state) :
  verify_outcome req s = Some Rejected ->
  fetched (trace_of (post_response_handler req s)) =
  Some (false, list_byte_of_string "Invalid token") /\
  lock_is_open (state_of (post_response_handler req s)) = false.
Proof.
  intros V. rewrite (rejected_shape req s V).
  unfold trace_of, state_of, relocked_state. cbn [fst snd].
  now rewrite fetched_led_log, led_write_lock.
Qed.

(** The click, once a key is in store: a challenge is fetched, and the
    token followed by the key is posted. *)
Lemma openLock_with_key (rand_val : Z) (pg : page) (s : state)
      (b : byte) (v : list byte) :
  psk pg = Some (b :: v) ->
  openLock rand_val pg s =
  let r2 := post_response_handler
              (request_of (token rand_val ++ b :: v))
              (issued_state rand_val s) in
  match fetched (trace_of r2) with
  | None => (mkPage (psk pg) (keyField pg) (Some UnlockFailed), state_of r2)
  | Some (ok, text) =>
      (mkPage (psk pg) (keyField pg)
              (Some (if ok then UnlockSuccessful else ErrorText text)),
       state_of r2)
  end.
Proof.
  intros K. unfold openLock. rewrite K. cbn [getItem_or].
  now rewrite get_challenge_eq.
Qed.

(** A click with a stored non-empty key [k] short enough for the buffer
    draws a fresh challenge and is decided by the key alone: when the
    string [k] holds is the server's key, the page reports success and the
    lock ends open; otherwise the page reports the error text "Invalid
    token" and the lock ends closed, whatever it was before. *)
Theorem openLock_decided_by_key :
  forall (s : state) (rand_val : Z) (pg : page) (k : list byte),
    psk pg = Some k ->
    k <> [] ->
    Z.of_nat (List.length (token rand_val ++ k)) < sizeof_resp_buf ->
    let after := openLock rand_val pg s in
    outstanding (snd after) = token rand_val /\
    (cstr k = secret s ->
     status (fst after) = Some UnlockSuccessful /\
     lock_is_open (snd after) = true) /\
    (cstr k <> secret s ->
     status (fst after) =
       Some (ErrorText (list_byte_of_string "Invalid token")) /\
     lock_is_open (snd after) = false).
Proof.
  intros s r pg k K N B after.
  destruct k as [|b v]; [congruence|].
  set (P := token r ++ b :: v) in *.
  set (s1 := issued_state r s).
  assert (B' : 0 < Z.of_nat (List.length P) < sizeof_resp_buf).
  { split; [|exact B]. unfold P. rewrite length_app. cbn. lia. }
  assert (O1 : outstanding s1 = token r) by apply outstanding_issued.
  assert (S1 : secret s1 = secret s) by reflexivity.
  assert (C : cstr P = token r ++ cstr (b :: v))
    by (apply cstr_app, token_no_nul).
  destruct (verify_decision s1 P B') as (A & J & _).
  assert (E : after =
              let r2 := post_response_handler (request_of P) s1 in
              match fetched (trace_of r2) with
              | None => (mkPage (psk pg) (keyField pg) (Some UnlockFailed),
                         state_of r2)
              | Some (ok, text) =>
                  (mkPage (psk pg) (keyField pg)
                          (Some (if ok then UnlockSuccessful
                                 else ErrorText text)),
                   state_of r2)
              end)
    by (apply openLock_with_key; exact K).
  cbv zeta in E.
  assert (O2 : outstanding
                 (state_of (post_response_handler (request_of P) s1))
               = token r).
  { unfold outstanding. rewrite post_keeps_challenge. exact O1. }
  split; [|split].
  - rewrite E.
    destruct (fetched _) as [[ok text]|]; cbn [snd]; exact O2.
  - intros M.
    assert (V : verify_outcome (request_of P) s1 = Some Accepted).
    { apply A. rewrite C, O1, S1. now f_equal. }
    destruct (fetched_accepted _ _ V) as [F L].
    rewrite E, F. cbn [fst snd status]. now split.
  - intros M.
    assert (V : verify_outcome (request_of P) s1 = Some Rejected).
    { apply J. rewrite C, O1, S1. intros X.
      apply app_inv_head in X. contradiction. }
    destruct (fetched_rejected _ _ V) as [F L].
    rewrite E, F. cbn [fst snd status]. now split.
Qed.

Lemma openLock_decided_by_key_witness :
  psk (mkPage (Some (list_byte_of_string "WRONGKEY")) [] None)
  = Some (list_byte_of_string "WRONGKEY") /\
  list_byte_of_string "WRONGKEY" <> [] /\
  Z.of_nat (List.length (token 482913 ++ list_byte_of_string "WRONGKEY"))
  < sizeof_resp_buf /\
  lock_is_open
    (snd (openLock 482913
            (mkPage (Some (list_byte_of_string "WRONGKEY")) [] None)
            init_state)) = false.
Proof.
  assert (N : list_byte_of_string "WRONGKEY" <> []) by discriminate.
  assert (B : Z.of_nat (List.length
                          (token 482913 ++ list_byte_of_string "WRONGKEY"))
              < sizeof_resp_buf) by reflexivity.
  split; [reflexivity|]. split; [exact N|]. split; [exact B|].
  refine (proj2 (proj2 (proj2
            (openLock_decided_by_key init_state 482913
               (mkPage (Some (list_byte_of_string "WRONGKEY")) [] None)
               (list_byte_of_string "WRONGKEY") eq_refl N B)) _)).
  vm_compute. discriminate.
Defined.

(** A stored key that makes the posted body 64 bytes or longer can never
    unlock: the page reports the error text "Response too long", the lock
    stays as it was, and the only change on the server is the new
    challenge. *)
Theorem openLock_key_too_long :
  forall (s : state) (rand_val : Z) (pg : page) (k : list byte),
    psk pg = Some k ->
    sizeof_resp_buf <= Z.of_nat (List.length (token rand_val ++ k))
                    < Int.modulus ->
    openLock rand_val pg s =
    (mkPage (psk pg) (keyField pg)
            (Some (ErrorText (list_byte_of_string "Response too long"))),
     issued_state rand_val s).
Proof.
  intros s r pg k K B.
  destruct k as [|b v].
  - exfalso. rewrite app_nil_r in B.
    pose proof (token_length r). unfold sizeof_resp_buf in B. lia.
  - rewrite (openLock_with_key r pg s b v K). cbv zeta.
    rewrite post_too_long; [reflexivity|].
    rewrite request_of_checked_len; lia.
Qed.

Lemma openLock_key_too_long_witness :
  psk (mkPage (Some (repeat x41 63)) [] None) = Some (repeat x41 63) /\
  (sizeof_resp_buf <= Z.of_nat (List.length (token 7 ++ repeat x41 63))
                   < Int.modulus) /\
  lock_is_open
    (snd (openLock 7 (mkPage (Some (repeat x41 63)) [] None) init_state))
  = false.
Proof.
  assert (B : sizeof_resp_buf
              <= Z.of_nat (List.length (token 7 ++ repeat x41 63))
              < Int.modulus)
    by (vm_compute; split; [discriminate | reflexivity]).
  split; [reflexivity|]. split; [exact B|].
  rewrite (openLock_key_too_long init_state 7
             (mkPage (Some (repeat x41 63)) [] None) (repeat x41 63)
             eq_refl B).
  reflexivity.
Defined.

(** On a phone with nothing in store the field shows "DEFAULT_KEY", yet a
    click on Unlock sends nothing and asks for a key; after a click on
    Save, with the field as it is, Unlock opens the lock of a server in any
    state it can reach from start-up, and the LED turns green. *)
Theorem fresh_page_needs_save :
  forall (ops : list op) (rand_val : Z),
    let s := run ops init_state in
    keyField (load None) = DEFAULT_KEY /\
    openLock rand_val (load None) s =
      (mkPage None DEFAULT_KEY (Some SetKeyFirst), s) /\
    status (fst (openLock rand_val (saveKey (load None)) s))
      = Some UnlockSuccessful /\
    lock_is_open (snd (openLock rand_val (saveKey (load None)) s)) = true /\
    pixel (snd (openLock rand_val (saveKey (load None)) s)) = green.
Proof.
  intros ops r s.
  split; [reflexivity|]. split; [reflexivity|].
  destruct (arrays_stay_well_formed ops) as (_ & _ & S & _ & O & _).
  fold s in S, O.
  assert (B : Z.of_nat (List.length (token r ++ DEFAULT_KEY))
              < sizeof_resp_buf).
  { rewrite length_app. pose proof (token_length r).
    change (List.length DEFAULT_KEY) with 11%nat.
    unfold sizeof_resp_buf. lia. }
  assert (N : DEFAULT_KEY <> []) by discriminate.
  destruct (openLock_decided_by_key s r (saveKey (load None)) DEFAULT_KEY
              eq_refl N B) as (_ & A & _).
  destruct A as [A1 A2]; [now rewrite S|].
  split; [exact A1|]. split; [exact A2|].
  pose proof (led_mirrors_lock
                (ops ++ [Issue r;
                         Verify (request_of (token r ++ DEFAULT_KEY))]))
    as M.
  assert (E : snd (openLock r (saveKey (load None)) s) =
              run (ops ++ [Issue r;
                           Verify (request_of (token r ++ DEFAULT_KEY))])
                  init_state).
  { rewrite run_app. fold s. cbn [run fold_left].
    rewrite step_issue. unfold step.
    rewrite (openLock_with_key r (saveKey (load None)) s
               "D"%byte (tl DEFAULT_KEY) eq_refl).
    cbv zeta.
    change ("D"%byte :: tl DEFAULT_KEY) with DEFAULT_KEY.
    destruct (fetched _) as [[ok text]|]; reflexivity. }
  rewrite E in *. rewrite M, A2. reflexivity.
Qed.
